(** * Eulerian circuits on NetworkX graphs

    A shallow embedding of [Eulerian-Circuit-functions.py]: the three
    stack-based circuit builders [Eulerian_circuit_1], [Eulerian_circuit_2],
    [Eulerian_circuit_3] and the breadth-first connectivity check
    [all_positive_degree_vertices_connected], together with the parts of
    NetworkX and NumPy they call. *)

From stdpp Require Import gmap list.
From Stdlib Require Import ZArith Lia.

#[local] Set Warnings "-clear-no-such-hyp".
Local Open Scope Z_scope.

(** ** Outcomes of a call

    A Python call either returns a value or raises.  The [while] loops are
    embedded with a fuel argument; [OutOfFuel] is the outcome of a run that
    was cut short, it is no behaviour of the program. *)

Inductive exn : Set :=
  | KeyError
  | IndexError
  | NetworkXError
  | NetworkXPointlessConcept.

Inductive outcome (A : Type) : Type :=
  | Return (a : A)
  | Raise (e : exn)
  | OutOfFuel.

Arguments Return {A} a.
Arguments Raise {A} e.
Arguments OutOfFuel {A}.

(** ** NetworkX

    [nx.Graph] keeps [_adj], a dictionary from each node to the dictionary of
    its neighbours.  Dictionaries keep insertion order and every function
    below depends on that order, so [_adj] is an association list: nodes in
    insertion order, each with its neighbours in insertion order. *)

Abbreviation Graph := (list (Z * list Z)).

Module nx.

(** [list(G)], [len(G)] *)
Definition nodes (G : Graph) : list Z := G.*1.

(** [G[n]]: [None] stands for the [KeyError] of a missing node. *)
Fixpoint adj (G : Graph) (n : Z) : option (list Z) :=
  match G with
  | [] => None
  | (u, nbrs) :: G' => if decide (u = n) then Some nbrs else adj G' n
  end.

(** [G._adj[n] = nbrs'] for a node that is present. *)
Fixpoint set_adj (G : Graph) (n : Z) (nbrs' : list Z) : Graph :=
  match G with
  | [] => []
  | (u, nbrs) :: G' =>
      if decide (u = n) then (u, nbrs') :: G'
      else (u, nbrs) :: set_adj G' n nbrs'
  end.

Definition add_node (G : Graph) (n : Z) : Graph :=
  match adj G n with
  | Some _ => G
  | None => G ++ [(n, [])]
  end.

(** [G._adj[u][v] = datadict]: a new key goes last, an old one stays. *)
Definition add_nbr (G : Graph) (u v : Z) : Graph :=
  match adj G u with
  | Some nbrs => if decide (v ∈ nbrs) then G else set_adj G u (nbrs ++ [v])
  | None => G
  end.

Definition add_edge (G : Graph) (u v : Z) : Graph :=
  add_nbr (add_nbr (add_node (add_node G u) v) u v) v u.

(** [nx.Graph(ebunch)] *)
Definition from_edges (ebunch : list (Z * Z)) : Graph :=
  foldl (λ G e, add_edge G e.1 e.2) [] ebunch.

(** [G.degree()]: a self-loop counts twice. *)
Definition degree (n : Z) (nbrs : list Z) : nat :=
  (length nbrs + (if decide (n ∈ nbrs) then 1 else 0))%nat.

(** [G.number_of_edges()], which is [sum(d for _, d in G.degree()) // 2]. *)
Definition number_of_edges (G : Graph) : nat :=
  (sum_list ((λ p, degree p.1 p.2) <$> G) / 2)%nat.

(** [list(G.edges(n))] for a single node [n]: the pairs [(n, nbr)] in the
    order of [G._adj[n]]; a value that is no node of [G] raises
    [NetworkXError] ([None] here). *)
Definition edges_at (G : Graph) (n : Z) : option (list (Z * Z)) :=
  match adj G n with
  | Some nbrs => Some ((λ nbr, (n, nbr)) <$> nbrs)
  | None => None
  end.

(** [del G._adj[u][v]]: [None] stands for the [KeyError]. *)
Definition del_nbr (G : Graph) (u v : Z) : option Graph :=
  match adj G u with
  | Some nbrs =>
      if decide (v ∈ nbrs) then Some (set_adj G u (filter (λ w, w ≠ v) nbrs))
      else None
  | None => None
  end.

(** [G.remove_edge(u, v)]: deletes [v] under [u], then [u] under [v] when
    they differ; a [KeyError] of either deletion is turned into
    [NetworkXError], and the first deletion is not undone. *)
Definition remove_edge (G : Graph) (u v : Z) : outcome unit * Graph :=
  match del_nbr G u v with
  | None => (Raise NetworkXError, G)
  | Some G1 =>
      if decide (u = v) then (Return (), G1)
      else match del_nbr G1 v u with
           | None => (Raise NetworkXError, G1)
           | Some G2 => (Return (), G2)
           end
  end.

(** [nx.adjacency_matrix(G).todense()]: rows and columns follow
    [list(G)]; entry [i, j] is 1 when the [j]-th node is a neighbour of
    the [i]-th one and 0 otherwise. *)
Definition adjacency_matrix (G : Graph) : list (list Z) :=
  (λ p, (λ v, if decide (v ∈ p.2) then 1 else 0) <$> nodes G) <$> G.

(** [_plain_bfs(G, source)], the helper of [is_connected]: the set of the
    nodes that a breadth-first search from [source] finds.  The search is
    modelled with a queue; the fuel it gets below is never used up. *)
Fixpoint plain_bfs (fuel : nat) (G : Graph) (queue : list Z) (seen : gset Z)
  : outcome (gset Z) :=
  match fuel with
  | O => OutOfFuel
  | S fuel' =>
      match queue with
      | [] => Return seen
      | v :: queue' =>
          if decide (v ∈ seen) then plain_bfs fuel' G queue' seen
          else match adj G v with
               | None => Raise KeyError
               | Some nbrs => plain_bfs fuel' G (queue' ++ nbrs) ({[v]} ∪ seen)
               end
      end
  end.

(** Fuel that the traversal of [G] never exhausts. *)
Definition bfs_fuel (G : Graph) : nat :=
  (2 + sum_list ((λ p, S (length p.2)) <$> G))%nat.

(** [nx.is_connected(G)]: raises on the null graph; otherwise counts the
    nodes found by a breadth-first search from the first node of [G] and
    compares the count with [len(G)]. *)
Definition is_connected (G : Graph) : outcome bool :=
  match G with
  | [] => Raise NetworkXPointlessConcept
  | (source, _) :: _ =>
      match plain_bfs (bfs_fuel G) G [source] ∅ with
      | Return seen => Return (bool_decide (size seen = length G))
      | Raise e => Raise e
      | OutOfFuel => OutOfFuel
      end
  end.

(** [nx.is_eulerian(G)] for an undirected graph:
    [all(d % 2 == 0 for _, d in G.degree()) and nx.is_connected(G)]. *)
Definition is_eulerian (G : Graph) : outcome bool :=
  if forallb (λ p, Nat.even (degree p.1 p.2)) G then is_connected G
  else Return false.

End nx.

(** ** NumPy *)

Module np.

(** An integer index into an axis of length [n]: negative indices count
    from the end, anything else out of range is an [IndexError]. *)
Definition index (n : nat) (i : Z) : option nat :=
  if decide (0 ≤ i < Z.of_nat n) then Some (Z.to_nat i)
  else if decide (- Z.of_nat n ≤ i < 0) then Some (Z.to_nat (Z.of_nat n + i))
  else None.

(** [a[i]] *)
Definition getitem {A} (a : list A) (i : Z) : option A :=
  index (length a) i ≫= λ k, a !! k.

(** [a[i] = x] *)
Definition setitem {A} (a : list A) (i : Z) (x : A) : option (list A) :=
  (λ k, <[k:=x]> a) <$> index (length a) i.

(** [F[i][j] = x] on a two-dimensional array: [F[i]] is a view. *)
Definition setitem2 (F : list (list Z)) (i j : Z) (x : Z)
  : option (list (list Z)) :=
  row ← getitem F i; row' ← setitem row j x; setitem F i row'.

(** [row.any()] *)
Definition any (row : list Z) : bool := existsb (λ x, negb (x =? 0)) row.

(** [np.nonzero(row)[0]]: the indices of the non-zero entries, in order. *)
Fixpoint nonzero_from (i : Z) (row : list Z) : list Z :=
  match row with
  | [] => []
  | x :: row' =>
      if decide (x = 0) then nonzero_from (i + 1) row'
      else i :: nonzero_from (i + 1) row'
  end.

Definition nonzero (row : list Z) : list Z := nonzero_from 0 row.

End np.

(** ** The circuit builders

    In the three loops the Python list [stack] is kept with its top (the
    end of the Python list) at the head; [circuit] is kept as it is. Each
    builder returns its outcome together with the caller's graph as the call
    leaves it. *)

Fixpoint loop_1 (fuel : nat) (G : Graph) (stack circuit : list Z)
  : outcome (option (list Z)) * Graph :=
  match fuel with
  | O => (OutOfFuel, G)
  | S fuel' =>
      match stack with
      | [] => (Return (Some circuit), G)
      | current_vertex :: rest =>
          match nx.edges_at G current_vertex with
          | None => (Raise NetworkXError, G)
          | Some F =>
              match last F with
              | Some e =>
                  match nx.remove_edge G e.1 e.2 with
                  | (Return _, G') => loop_1 fuel' G' (e.2 :: stack) circuit
                  | (Raise ex, G') => (Raise ex, G')
                  | (OutOfFuel, G') => (OutOfFuel, G')
                  end
              | None => loop_1 fuel' G rest (circuit ++ [current_vertex])
              end
          end
      end
  end.

Definition Eulerian_circuit_1 (fuel : nat) (G : Graph)
  : outcome (option (list Z)) * Graph :=
  match nx.is_eulerian G with
  | Return true => loop_1 fuel G [0] []
  | Return false => (Return None, G)
  | Raise e => (Raise e, G)
  | OutOfFuel => (OutOfFuel, G)
  end.

Fixpoint loop_2 (fuel : nat) (F : list (list Z)) (stack circuit : list Z)
  : outcome (option (list Z)) :=
  match fuel with
  | O => OutOfFuel
  | S fuel' =>
      match stack with
      | [] => Return (Some circuit)
      | current_vertex :: rest =>
          match np.getitem F current_vertex with
          | None => Raise IndexError
          | Some row =>
              if np.any row then
                match np.nonzero row with
                | [] => Raise IndexError
                | edge :: _ =>
                    match np.setitem2 F current_vertex edge 0 with
                    | None => Raise IndexError
                    | Some F1 =>
                        match np.setitem2 F1 edge current_vertex 0 with
                        | None => Raise IndexError
                        | Some F2 => loop_2 fuel' F2 (edge :: stack) circuit
                        end
                    end
                end
              else loop_2 fuel' F rest (circuit ++ [current_vertex])
          end
      end
  end.

(** The message that variant 2 prints before it returns [None] is no part
    of the outcome. *)
Definition Eulerian_circuit_2 (fuel : nat) (G : Graph)
  : outcome (option (list Z)) * Graph :=
  match nx.is_eulerian G with
  | Return true => (loop_2 fuel (nx.adjacency_matrix G) [0] [], G)
  | Return false => (Return None, G)
  | Raise e => (Raise e, G)
  | OutOfFuel => (OutOfFuel, G)
  end.

(** [seen] is a Python list of two-element sets; [{u, v} not in seen]
    compares sets, so the direction of an edge does not matter. *)
Fixpoint loop_3 (fuel : nat) (G : Graph) (stack : list Z)
    (seen : list (gset Z)) (circuit : list Z) : outcome (option (list Z)) :=
  match fuel with
  | O => OutOfFuel
  | S fuel' =>
      match stack with
      | [] => Return (Some circuit)
      | current_vertex :: rest =>
          match nx.adj G current_vertex with
          | None => Raise KeyError
          | Some nbrs =>
              let T := (λ neighbour, (current_vertex, neighbour)) <$>
                       filter (λ neighbour,
                                 ({[current_vertex; neighbour]} : gset Z) ∉ seen)
                              nbrs in
              match T with
              | edge :: _ =>
                  loop_3 fuel' G (edge.2 :: stack)
                         (seen ++ [{[edge.1; edge.2]}]) circuit
              | [] => loop_3 fuel' G rest seen (circuit ++ [current_vertex])
              end
          end
      end
  end.

Definition Eulerian_circuit_3 (fuel : nat) (G : Graph)
  : outcome (option (list Z)) * Graph :=
  match nx.is_eulerian G with
  | Return true => (loop_3 fuel G [0] [] [], G)
  | Return false => (Return None, G)
  | Raise e => (Raise e, G)
  | OutOfFuel => (OutOfFuel, G)
  end.

(** ** The connectivity check *)

(** [[i for i in G if len(list(G[i])) > 0]] *)
Definition pos_deg (G : Graph) : list Z :=
  filter (λ i, (0 < length (default [] (nx.adj G i)))%nat) (nx.nodes G).

(** The [while queue] loop: [queue] is the [deque] with its left end at the
    head, [seen] the Python set. *)
Fixpoint bfs_loop (fuel : nat) (G : Graph) (queue : list Z) (seen : gset Z)
  : outcome (gset Z) :=
  match fuel with
  | O => OutOfFuel
  | S fuel' =>
      match queue with
      | [] => Return seen
      | current_vertex :: queue' =>
          if decide (current_vertex ∈ seen) then bfs_loop fuel' G queue' seen
          else match nx.adj G current_vertex with
               | None => Raise KeyError
               | Some nbrs =>
                   bfs_loop fuel' G (queue' ++ nbrs) ({[current_vertex]} ∪ seen)
               end
      end
  end.

Definition all_positive_degree_vertices_connected (fuel : nat) (G : Graph)
  : outcome bool :=
  match pos_deg G with
  | [] => Raise IndexError
  | u :: _ =>
      match bfs_loop fuel G [u] ∅ with
      | Return seen => Return (bool_decide (size seen = length (pos_deg G)))
      | Raise e => Raise e
      | OutOfFuel => OutOfFuel
      end
  end.

(** ** The example graphs of the source

    They are built from Python sets of two small integers, which iterate in
    increasing order.  [G1_bis] is the graph [G1] of the second copy of the
    code in the source file, whose nodes are 1 to 7. *)

Definition G1 : Graph :=
  nx.from_edges [(0,1);(0,4);(0,5);(0,6);(1,2);(2,6);(2,3);(2,5);(3,4);(4,5);(4,6);(5,6)].
Definition G2 : Graph :=
  nx.from_edges [(0,1);(1,2);(2,3);(3,4);(1,4);(1,3);(0,3)].
Definition G3 : Graph :=
  nx.from_edges [(0,1);(1,2);(2,3);(3,4);(1,4);(1,5);(0,5)].
Definition G4 : Graph :=
  nx.from_edges [(0,1);(1,2);(0,2);(0,4);(0,3);(3,4)].
Definition G1_bis : Graph :=
  nx.from_edges [(1,2);(1,5);(1,6);(1,7);(2,3);(3,7);(3,4);(3,6);(4,5);(5,6);(5,7);(6,7)].

(** * Vocabulary of the verification

    The notions in which the claims are stated, and the bookkeeping of their
    proofs. *)

(** ** Edges, well-formed graphs, reachability *)

(** The entries of [_adj] as directed pairs: an undirected edge [{u, v}]
    is stored as both [(u, v)] and [(v, u)]. *)
Definition dir_edges (G : Graph) : list (Z * Z) :=
  G ≫= λ p, (λ v, (p.1, v)) <$> p.2.

(** What every [nx.Graph] without self-loops satisfies: the keys of a
    dictionary are distinct, and [v] is stored under [u] exactly when [u]
    is stored under [v]. *)
Definition wf_graph (G : Graph) : Prop :=
  NoDup (nx.nodes G) ∧
  Forall (λ p, NoDup p.2 ∧ (p.1 ∉ p.2) ∧
               Forall (λ v, (v, p.1) ∈ dir_edges G) p.2) G.

#[global] Instance wf_graph_dec G : Decision (wf_graph G).
Proof. unfold wf_graph. apply _. Defined.

(** [v] can be reached from [u] along edges of [G]. *)
Definition reach (G : Graph) : relation Z := rtc (λ x y, (x, y) ∈ dir_edges G).

(** Every node has an even number of neighbours. *)
Definition all_even (G : Graph) : Prop :=
  ∀ u nbrs, (u, nbrs) ∈ G → Nat.Even (length nbrs).

(** Every node can be reached from every node. *)
Definition connected (G : Graph) : Prop :=
  ∀ u v, u ∈ nx.nodes G → v ∈ nx.nodes G → reach G u v.

(** All positive-degree vertices lie in one connected component. *)
Definition pos_deg_connected (G : Graph) : Prop :=
  ∀ v w, v ∈ pos_deg G → w ∈ pos_deg G → reach G v w.

(** [l] with [v] added at the end unless it is there. *)
Definition with_nbr (l : list Z) (v : Z) : list Z :=
  if decide (v ∈ l) then l else l ++ [v].

(** ** Circuits *)

(** [(C[i], C[i+1])] for every position [i]. *)
Definition consecutive_pairs (C : list Z) : list (Z * Z) := zip C (tail C).

(** [G.has_edge(u, v)] *)
Definition has_edge (G : Graph) (u v : Z) : bool :=
  match nx.adj G u with
  | Some nbrs => bool_decide (v ∈ nbrs)
  | None => false
  end.

(** How often the pair [e] occurs in [l]. *)
Definition occurrences (e : Z * Z) (l : list (Z * Z)) : nat :=
  length (filter (λ p, p = e) l).

(** [C] is closed, has one more vertex than [G] has edges, and every
    unordered pair of vertices occurs among the consecutive pairs of [C], in
    one direction or the other, once when it is an edge of [G] and never
    otherwise. *)
Definition eulerian_circuit_of (G : Graph) (C : list Z) : Prop :=
  (∃ v, head C = Some v ∧ last C = Some v) ∧
  length C = (nx.number_of_edges G + 1)%nat ∧
  ∀ u v, (occurrences (u, v) (consecutive_pairs C) +
          occurrences (v, u) (consecutive_pairs C))%nat
         = if has_edge G u v then 1%nat else 0%nat.

(** The node labels are their own matrix indices. *)
Definition canonical_nodes (G : Graph) : Prop :=
  nx.nodes G = seqZ 0 (Z.of_nat (length G)).

#[global] Instance canonical_nodes_dec G : Decision (canonical_nodes G).
Proof. unfold canonical_nodes. apply _. Defined.

(** ** Fuel *)

(** Fuel that the loops of the three builders never exhaust on [G]: one
    iteration for each push, one for each pop, one to see the empty stack. *)
Definition circuit_fuel (G : Graph) : nat := (length (dir_edges G) + 2)%nat.

(** ** The state of the traversal and of the builders *)

(** Work left for the traversal: the queue, and for every node not yet
    seen its neighbours (which will be queued) plus one. *)
Definition bfs_weight (G : Graph) (seen : gset Z) : nat :=
  sum_list ((λ p, if decide (p.1 ∈ seen) then 0 else S (length p.2))%nat <$> G).

(** It decreases in every iteration of the traversal. *)
Definition bfs_measure (G : Graph) (queue : list Z) (seen : gset Z) : nat :=
  (length queue + bfs_weight G seen)%nat.

(** The consecutive pairs of a walk in both directions, the way [_adj]
    stores edges. *)
Fixpoint walk_pairs (l : list Z) : list (Z * Z) :=
  match l with
  | x :: l' =>
      match l' with
      | y :: _ => (x, y) :: (y, x) :: walk_pairs l'
      | [] => []
      end
  | [] => []
  end.

(** Number of stored pairs that leave [x]. *)
Definition out_deg (R : list (Z * Z)) (x : Z) : nat :=
  length (filter (λ p, p.1 = x) R).

(** The invariant of the stack-based construction.  [E] holds the pairs of
    the graph the loop started from and [R] the pairs not yet consumed.  The
    consumed pairs are those of the walk kept on the stack, [top :: s], and
    of the walk [c ++ [a]], where [c] is the circuit so far and the anchor
    [a] is the vertex that was on top of the stack after the latest pop. *)
Record hinv (E : list (Z * Z)) (start : Z) (a top : Z) (s c : list Z)
    (R : list (Z * Z)) : Prop := {
  hinv_edges : E ≡ₚ R ++ walk_pairs (top :: s) ++ walk_pairs (c ++ [a]);
  hinv_bottom : last (top :: s) = Some start;
  hinv_first : head (c ++ [a]) = Some start;
  hinv_parity : ∀ x,
    Nat.odd (out_deg R x) = bool_decide (a ≠ top ∧ (x = a ∨ x = top));
  hinv_done : ∀ x y, x ∈ c → (x, y) ∉ R
}.

(** What holds of the returned circuit [C] once the stack is empty. *)
Record hfinal (E : list (Z * Z)) (start : Z) (C : list Z) (R : list (Z * Z))
    : Prop := {
  hfinal_edges : E ≡ₚ R ++ walk_pairs C;
  hfinal_first : head C = Some start;
  hfinal_last : last C = Some start;
  hfinal_done : ∀ x y, x ∈ C → (x, y) ∉ R
}.

(** The pairs of [G] whose edge is not in [seen]. *)
Definition unseen (G : Graph) (seen : list (gset Z)) : list (Z * Z) :=
  filter (λ p, ({[p.1; p.2]} : gset Z) ∉ seen) (dir_edges G).

(** What the loop of variant 1 keeps true of the graph it mutates. *)
Definition simple_adj (G : Graph) : Prop :=
  NoDup (nx.nodes G) ∧ NoDup (dir_edges G) ∧
  (∀ x y, (x, y) ∈ dir_edges G → (y, x) ∈ dir_edges G) ∧
  (∀ x, (x, x) ∉ dir_edges G).

(** Entry [i, j] of a matrix, 0 outside of it. *)
Definition entry (F : list (list Z)) (i j : nat) : Z :=
  default 0 (F !! i ≫= λ row, row !! j).

(** All index pairs of an [n]-by-[n] matrix. *)
Definition all_pairs (n : nat) : list (Z * Z) :=
  seqZ 0 (Z.of_nat n) ≫= λ i, (λ j, (i, j)) <$> seqZ 0 (Z.of_nat n).

(** The index pairs whose entry is not zero: the edges left in [F]. *)
Definition matrix_edges (F : list (list Z)) : list (Z * Z) :=
  filter (λ p, entry F (Z.to_nat p.1) (Z.to_nat p.2) ≠ 0) (all_pairs (length F)).

(** [n] rows of length [n]. *)
Definition square (n : nat) (F : list (list Z)) : Prop :=
  length F = n ∧ Forall (λ row, length row = n) F.

(** A square matrix that is symmetric with a zero diagonal. *)
Definition simple_matrix (n : nat) (F : list (list Z)) : Prop :=
  square n F ∧
  (∀ i j, entry F i j ≠ 0 → entry F j i ≠ 0) ∧
  (∀ i, entry F i i = 0).

(** Position of the label [u] in the node list: its row and column. *)
Fixpoint index_of (l : list Z) (u : Z) : nat :=
  match l with
  | [] => 0
  | x :: l' => if decide (x = u) then 0 else S (index_of l' u)
  end.

(** An edge between labels as the pair of their matrix indices. *)
Definition relabel (G : Graph) (e : Z * Z) : Z * Z :=
  (Z.of_nat (index_of (nx.nodes G) e.1), Z.of_nat (index_of (nx.nodes G) e.2)).

(** [list(G)[i]] for a matrix index [i], [0 ≤ i < len(G)]. *)
Definition node_at (G : Graph) (i : Z) : Z :=
  default 0 (nx.nodes G !! Z.to_nat i).

(** The graph with every node of [G] and no edge. *)
Definition without_edges (G : Graph) : Graph := (λ n, (n, [])) <$> nx.nodes G.

(** Fuel that no builder exhausts, whatever the graph. *)
Definition any_fuel (G : Graph) : nat :=
  (2 * (length (dir_edges G) + length (all_pairs (length G))) + 2)%nat.

(** ** Further example graphs *)

(** A triangle on the vertices 1, 2, 3: Eulerian, and without a vertex 0. *)
Definition triangle_123 : Graph := nx.from_edges [(1,2);(2,3);(1,3)].

(** A triangle on the vertices 0, 5, 7: labels differ from matrix indices. *)
Definition triangle_057 : Graph := nx.from_edges [(0,5);(5,7);(0,7)].

(** A path on three vertices: its end vertices have odd degree. *)
Definition path_012 : Graph := nx.from_edges [(0,1);(1,2)].

(** Two vertices and no edge. *)
Definition edgeless_01 : Graph := nx.add_node (nx.add_node [] 0) 1.

(** The graph [G4] with its edges added in the opposite order, each from its
    other end. *)
Definition G4_reversed : Graph :=
  nx.from_edges [(4,3);(3,0);(4,0);(2,0);(2,1);(1,0)].

(** A triangle beside a node without neighbours. *)
Definition triangle_and_isolated : Graph :=
  nx.add_node (nx.from_edges [(0,1);(1,2);(0,2)]) 3.

(** * Facts about graphs *)

Section graph_facts.
Context (G : Graph).

Lemma adj_Some_elem n nbrs : nx.adj G n = Some nbrs → (n, nbrs) ∈ G.
Proof.
  induction G as [|[u ns] G' IH]; simpl; [done|].
  case_decide; intros; simplify_eq; [left | right; auto].
Qed.

Lemma adj_None n : nx.adj G n = None ↔ n ∉ nx.nodes G.
Proof.
  unfold nx.nodes. induction G as [|[u ns] G' IH]; csimpl.
  - split; [intros _; apply not_elem_of_nil | done].
  - rewrite not_elem_of_cons. case_decide as Hun.
    + split; [done | intros [Hne _]; by destruct Hne].
    + rewrite IH. split; [intros ?; split; [congruence | done] | tauto].
Qed.

Lemma adj_is_Some n : is_Some (nx.adj G n) ↔ n ∈ nx.nodes G.
Proof.
  rewrite <-not_eq_None_Some, adj_None.
  split; [apply dec_stable | tauto].
Qed.

Lemma elem_adj_Some n nbrs :
  NoDup (nx.nodes G) → (n, nbrs) ∈ G → nx.adj G n = Some nbrs.
Proof.
  unfold nx.nodes. induction G as [|[u ns] G' IH]; csimpl.
  - intros _ H. by apply elem_of_nil in H.
  - rewrite NoDup_cons, elem_of_cons. intros [Hu Hnd] [Heq | Hin].
    + simplify_eq. by rewrite decide_True.
    + rewrite decide_False; [auto|]. intros ->. apply Hu.
      apply list_elem_of_fmap. by exists (n, nbrs).
Qed.

Lemma elem_of_dir_edges x y :
  (x, y) ∈ dir_edges G ↔ ∃ nbrs, (x, nbrs) ∈ G ∧ y ∈ nbrs.
Proof.
  unfold dir_edges. rewrite list_elem_of_bind. split.
  - intros ([u ns] & Hin & HG). apply list_elem_of_fmap in Hin as (v & ? & ?).
    simplify_eq/=. eauto.
  - intros (ns & HG & Hy). exists (x, ns). split; [|done].
    apply list_elem_of_fmap. eauto.
Qed.

Lemma dir_edges_adj x y :
  NoDup (nx.nodes G) →
  (x, y) ∈ dir_edges G ↔ ∃ nbrs, nx.adj G x = Some nbrs ∧ y ∈ nbrs.
Proof.
  intros Hnd. rewrite elem_of_dir_edges. split; intros (ns & ? & ?);
    exists ns; eauto using elem_adj_Some, adj_Some_elem.
Qed.

Lemma dir_edges_node x y : (x, y) ∈ dir_edges G → x ∈ nx.nodes G.
Proof.
  rewrite elem_of_dir_edges. intros (ns & ? & ?).
  apply list_elem_of_fmap. by exists (x, ns).
Qed.

Lemma length_dir_edges :
  length (dir_edges G) = sum_list ((λ p, length p.2) <$> G).
Proof.
  unfold dir_edges. induction G as [|[u ns] G' IH]; csimpl; [done|].
  rewrite length_app, length_fmap. f_equal. exact IH.
Qed.

Context (Hwf : wf_graph G).

Lemma wf_nodes_NoDup : NoDup (nx.nodes G).
Proof. apply Hwf. Qed.

Lemma wf_entry u nbrs :
  (u, nbrs) ∈ G →
  NoDup nbrs ∧ (u ∉ nbrs) ∧ ∀ v, v ∈ nbrs → (v, u) ∈ dir_edges G.
Proof.
  destruct Hwf as [_ HF]. rewrite Forall_forall in HF.
  intros Hin. destruct (HF _ Hin) as (? & ? & HF'); simpl in *.
  rewrite Forall_forall in HF'. auto.
Qed.

Lemma dir_edges_sym x y : (x, y) ∈ dir_edges G → (y, x) ∈ dir_edges G.
Proof.
  rewrite elem_of_dir_edges. intros (ns & Hin & Hy).
  by apply (wf_entry _ _ Hin).
Qed.

Lemma dir_edges_irrefl x : (x, x) ∉ dir_edges G.
Proof.
  rewrite elem_of_dir_edges. intros (ns & Hin & Hy).
  by apply (wf_entry _ _ Hin).
Qed.

Lemma dir_edges_NoDup : NoDup (dir_edges G).
Proof.
  destruct Hwf as [Hnd HF]. clear Hwf. unfold dir_edges, nx.nodes in *.
  assert (Forall (λ p : Z * list Z, NoDup p.2) G) as HF'.
  { eapply Forall_impl; [exact HF|]. by intros p [? _]. }
  clear HF. induction G as [|[u ns] G' IH]; csimpl; [constructor|].
  apply NoDup_cons in Hnd as [Hu Hnd]. apply Forall_cons in HF' as [Hns HF'].
  apply NoDup_app. split_and!.
  - apply NoDup_fmap_2; [|done]. by intros ?? [=].
  - intros [a b] Hin Hin'. apply list_elem_of_fmap in Hin as (v & ? & ?).
    simplify_eq/=. apply Hu. apply list_elem_of_bind in Hin' as ([u' ns'] & Hin' & ?).
    apply list_elem_of_fmap in Hin' as (v' & ? & ?). simplify_eq/=.
    apply list_elem_of_fmap. by exists (u', ns').
  - auto.
Qed.

Lemma reach_sym u v : reach G u v → reach G v u.
Proof.
  induction 1 as [|x y z Hxy _ IH]; [done|].
  eapply rtc_r; [exact IH|]. by apply dir_edges_sym.
Qed.

Lemma reach_node u v : u ∈ nx.nodes G → reach G u v → v ∈ nx.nodes G.
Proof.
  intros Hu. induction 1 as [|x y z Hxy _ IH]; [done|].
  apply IH. eapply dir_edges_node, dir_edges_sym, Hxy.
Qed.

End graph_facts.

(** ** The breadth-first traversal *)

Lemma bfs_weight_mono G v seen :
  (bfs_weight G ({[v]} ∪ seen) ≤ bfs_weight G seen)%nat.
Proof.
  unfold bfs_weight. induction G as [|[u ns] G IH]; csimpl; [done|].
  destruct (decide (u ∈ seen)) as [Hu|Hu].
  - rewrite decide_True by (apply elem_of_union; by right). lia.
  - case_decide; lia.
Qed.

Lemma bfs_weight_visit G v nbrs seen :
  nx.adj G v = Some nbrs → v ∉ seen →
  (bfs_weight G ({[v]} ∪ seen) + S (length nbrs) ≤ bfs_weight G seen)%nat.
Proof.
  unfold bfs_weight. induction G as [|[u ns] G IH]; csimpl; [done|].
  intros Hadj Hv. destruct (decide (u = v)) as [->|Hne].
  - simplify_eq. rewrite decide_True by (apply elem_of_union; left; by apply elem_of_singleton).
    rewrite decide_False by done.
    pose proof (bfs_weight_mono G v seen) as Hm. unfold bfs_weight in Hm. lia.
  - specialize (IH Hadj Hv).
    destruct (decide (u ∈ seen)) as [Hu|Hu].
    + rewrite decide_True by (apply elem_of_union; by right). lia.
    + rewrite decide_False; [lia|]. rewrite elem_of_union, elem_of_singleton. tauto.
Qed.

Lemma bfs_fuel_enough G source :
  (bfs_measure G [source] ∅ < nx.bfs_fuel G)%nat.
Proof.
  unfold bfs_measure, nx.bfs_fuel.
  assert (bfs_weight G ∅ = sum_list ((λ p : Z * list Z, S (length p.2)) <$> G))
    as ->; [|simpl; lia].
  reflexivity.
Qed.

(** The traversal never runs forever, whatever the graph. *)
Lemma bfs_loop_terminates G fuel queue seen :
  (bfs_measure G queue seen < fuel)%nat →
  bfs_loop fuel G queue seen ≠ OutOfFuel.
Proof.
  revert queue seen. induction fuel as [|fuel IH]; intros queue seen Hm; [lia|].
  simpl. destruct queue as [|v queue]; [done|].
  unfold bfs_measure in *. simpl in Hm. case_decide as Hv.
  - apply IH. lia.
  - destruct (nx.adj G v) as [nbrs|] eqn:Hadj; [|done].
    apply IH. rewrite length_app.
    pose proof (bfs_weight_visit G v nbrs seen Hadj Hv). lia.
Qed.

(** On a well-formed graph it returns exactly the vertices reachable from
    the root [u]. *)
Lemma bfs_loop_reach G u fuel queue seen :
  wf_graph G → u ∈ nx.nodes G →
  (∀ x, x ∈ queue ∨ x ∈ seen → reach G u x) →
  (u ∈ seen ∨ u ∈ queue) →
  (∀ x y, x ∈ seen → (x, y) ∈ dir_edges G → y ∈ seen ∨ y ∈ queue) →
  (bfs_measure G queue seen < fuel)%nat →
  ∃ seen', bfs_loop fuel G queue seen = Return seen' ∧
           ∀ v, v ∈ seen' ↔ reach G u v.
Proof.
  intros Hwf Hu. revert queue seen.
  induction fuel as [|fuel IH]; intros queue seen Hreach Hroot Hclosed Hm; [lia|].
  simpl. destruct queue as [|v queue].
  - exists seen. split; [done|]. intros w. split; [by auto|].
    assert (u ∈ seen) as Hus.
    { destruct Hroot as [|Hq]; [done | by apply elem_of_nil in Hq]. }
    revert Hus. generalize u. induction 2 as [|x y z Hxy _ IHr]; [done|].
    apply IHr. destruct (Hclosed _ _ Hus Hxy) as [|Hq]; [done|].
    by apply elem_of_nil in Hq.
  - unfold bfs_measure in *. simpl in Hm. case_decide as Hv.
    + apply IH.
      * intros x [?|?]; apply Hreach; [left; by right | by right].
      * destruct Hroot as [|Hq]; [by left|].
        apply elem_of_cons in Hq as [->|]; auto.
      * intros x y Hx Hxy. destruct (Hclosed _ _ Hx Hxy) as [|Hq]; [by left|].
        apply elem_of_cons in Hq as [->|]; auto.
      * lia.
    + assert (reach G u v) as Huv by (apply Hreach; left; left).
      pose proof (reach_node G Hwf u v Hu Huv) as Hnode.
      apply adj_is_Some in Hnode as [nbrs Hadj]. rewrite Hadj.
      apply IH.
      * intros x [Hx|Hx].
        -- apply elem_of_app in Hx as [Hx|Hx]; [apply Hreach; left; by right|].
           eapply rtc_r; [exact Huv|]. apply dir_edges_adj; [apply Hwf|]. eauto.
        -- apply elem_of_union in Hx as [Hx|Hx]; [|apply Hreach; by right].
           apply elem_of_singleton in Hx as ->. done.
      * destruct Hroot as [|Hq]; [left; set_solver|].
        apply elem_of_cons in Hq as [->|Hq]; [left; set_solver|].
        right. apply elem_of_app. by left.
      * intros x y Hx Hxy. apply elem_of_union in Hx as [Hx|Hx].
        -- apply elem_of_singleton in Hx as ->. right. apply elem_of_app. right.
           apply dir_edges_adj in Hxy as (ns & Hns & ?); [|apply Hwf].
           by simplify_eq.
        -- destruct (Hclosed _ _ Hx Hxy) as [|Hq]; [left; set_solver|].
           apply elem_of_cons in Hq as [->|Hq]; [left; set_solver|].
           right. apply elem_of_app. by left.
      * rewrite length_app.
        pose proof (bfs_weight_visit G v nbrs seen Hadj Hv). lia.
Qed.

Lemma bfs_from_root G u fuel :
  wf_graph G → u ∈ nx.nodes G → (nx.bfs_fuel G ≤ fuel)%nat →
  ∃ seen, bfs_loop fuel G [u] ∅ = Return seen ∧
          ∀ v, v ∈ seen ↔ reach G u v.
Proof.
  intros Hwf Hu Hfuel. apply bfs_loop_reach; [done | done | | | |].
  - intros x [Hx|Hx]; [|by apply not_elem_of_empty in Hx].
    apply list_elem_of_singleton in Hx as ->. done.
  - right. by left.
  - intros x y Hx. by apply not_elem_of_empty in Hx.
  - pose proof (bfs_fuel_enough G u). lia.
Qed.

(** A set of vertices drawn from a duplicate-free list has as many
    elements as the list exactly when it holds all of them. *)
Lemma size_eq_length_iff (seen : gset Z) (l : list Z) :
  NoDup l → (∀ v, v ∈ seen → v ∈ l) →
  size seen = length l ↔ ∀ v, v ∈ l → v ∈ seen.
Proof.
  intros Hnd Hsub. rewrite <-(size_list_to_set (C:=gset Z) l Hnd).
  assert (seen ⊆ list_to_set l) as Hsub'.
  { intros v Hv. apply elem_of_list_to_set. auto. }
  split.
  - intros Hsz v Hv.
    rewrite (set_subseteq_size_eq seen (list_to_set l)); [|done|lia].
    by apply elem_of_list_to_set.
  - intros Hall. f_equal. apply set_eq. intros v.
    rewrite elem_of_list_to_set. split; auto.
Qed.

(** ** The Eulerian test of NetworkX *)

(** The search inside [nx.is_connected] visits what [bfs_loop] visits. *)
Lemma plain_bfs_bfs_loop fuel G queue seen :
  nx.plain_bfs fuel G queue seen = bfs_loop fuel G queue seen.
Proof.
  revert queue seen. induction fuel as [|fuel IH]; intros queue seen; [done|].
  simpl. destruct queue as [|v queue]; [done|].
  case_decide; [apply IH|]. destruct (nx.adj G v); [apply IH | done].
Qed.

Lemma is_connected_terminates G : nx.is_connected G ≠ OutOfFuel.
Proof.
  unfold nx.is_connected. destruct G as [|[source ns] G']; [done|].
  rewrite plain_bfs_bfs_loop.
  pose proof (bfs_loop_terminates ((source, ns) :: G') (nx.bfs_fuel ((source, ns) :: G'))
                [source] ∅ (bfs_fuel_enough _ _)) as Hterm.
  by destruct (bfs_loop _ _ _ _).
Qed.

Lemma is_eulerian_terminates G : nx.is_eulerian G ≠ OutOfFuel.
Proof.
  unfold nx.is_eulerian. case_match; [apply is_connected_terminates | done].
Qed.

Lemma is_connected_spec G :
  wf_graph G → G ≠ [] →
  ∃ b, nx.is_connected G = Return b ∧ (b = true ↔ connected G).
Proof.
  intros Hwf Hne. unfold nx.is_connected.
  destruct G as [|[source ns] G'] eqn:HG; [done|]. rewrite <-HG in *.
  rewrite plain_bfs_bfs_loop.
  assert (source ∈ nx.nodes G) as Hsrc.
  { rewrite HG. unfold nx.nodes. csimpl. by left. }
  destruct (bfs_from_root G source (nx.bfs_fuel G) Hwf Hsrc) as (seen & -> & Hseen);
    [done|].
  eexists. split; [done|]. rewrite bool_decide_eq_true.
  replace (length G) with (length (nx.nodes G)) by apply length_fmap.
  rewrite size_eq_length_iff; [|apply Hwf|].
  - split.
    + intros Hall u v Hu Hv. etrans.
      * apply reach_sym; [done|]. apply Hseen, Hall, Hu.
      * apply Hseen, Hall, Hv.
    + intros Hconn v Hv. apply Hseen. by apply Hconn.
  - intros v Hv. eapply reach_node; [done..|]. by apply Hseen.
Qed.

Lemma wf_degree G u nbrs :
  wf_graph G → (u, nbrs) ∈ G → nx.degree u nbrs = length nbrs.
Proof.
  intros Hwf Hin. destruct (wf_entry G Hwf u nbrs Hin) as (_ & Hu & _).
  unfold nx.degree. rewrite decide_False by done. lia.
Qed.

Lemma forallb_even_degree G :
  wf_graph G →
  forallb (λ p, Nat.even (nx.degree p.1 p.2)) G = true ↔ all_even G.
Proof.
  intros Hwf. rewrite forallb_forall. unfold all_even. split.
  - intros H u nbrs Hin. apply Nat.even_spec.
    rewrite <-(wf_degree G u nbrs Hwf Hin).
    apply (H (u, nbrs)). by apply list_elem_of_In.
  - intros H [u nbrs] Hin%list_elem_of_In. simpl.
    rewrite (wf_degree G u nbrs Hwf Hin). apply Nat.even_spec. eauto.
Qed.

(** On a graph with at least one node the test returns a boolean, and it
    returns [True] exactly for the connected graphs in which every node has
    even degree. *)
Lemma is_eulerian_spec G :
  wf_graph G → G ≠ [] →
  ∃ b, nx.is_eulerian G = Return b ∧ (b = true ↔ all_even G ∧ connected G).
Proof.
  intros Hwf Hne. unfold nx.is_eulerian.
  pose proof (forallb_even_degree G Hwf) as Heven.
  destruct (forallb _ G).
  - destruct (is_connected_spec G Hwf Hne) as (b & -> & Hb).
    exists b. split; [done|]. rewrite Hb. split; [|tauto].
    intros; split; [by apply Heven | done].
  - exists false. split; [done|]. split; [done|]. intros [He _].
    by apply Heven in He.
Qed.

Lemma is_eulerian_true G :
  wf_graph G → nx.is_eulerian G = Return true →
  G ≠ [] ∧ all_even G ∧ connected G.
Proof.
  intros Hwf Heul. assert (G ≠ []) as Hne by (by intros ->).
  split; [done|]. destruct (is_eulerian_spec G Hwf Hne) as (b & Hb & Hspec).
  rewrite Hb in Heul. simplify_eq. by apply Hspec.
Qed.

(** ** Walks *)

Lemma perm_move2 {A} (a b : A) l1 l2 : l1 ++ a :: b :: l2 ≡ₚ a :: b :: l1 ++ l2.
Proof. by rewrite <-!Permutation_middle. Qed.

Lemma walk_pairs_snoc l y x :
  walk_pairs (l ++ [y; x]) ≡ₚ (y, x) :: (x, y) :: walk_pairs (l ++ [y]).
Proof.
  induction l as [|z l IH]; [done|].
  destruct l as [|z' l]; [apply (perm_move2 _ _ [(z, y); (y, z)] [])|].
  change (walk_pairs ((z :: z' :: l) ++ [y; x]))
    with ((z, z') :: (z', z) :: walk_pairs ((z' :: l) ++ [y; x])).
  change (walk_pairs ((z :: z' :: l) ++ [y]))
    with ((z, z') :: (z', z) :: walk_pairs ((z' :: l) ++ [y])).
  rewrite IH. apply (perm_move2 _ _ [(z, z'); (z', z)]).
Qed.

Lemma walk_pairs_elem l a b : (a, b) ∈ walk_pairs l → a ∈ l ∧ b ∈ l.
Proof.
  induction l as [|x l IH]; simpl; [by intros ?%elem_of_nil|].
  destruct l as [|y l]; [by intros ?%elem_of_nil|].
  intros Hin. apply elem_of_cons in Hin as [?|Hin]; simplify_eq.
  { rewrite !elem_of_cons. auto. }
  apply elem_of_cons in Hin as [?|Hin]; simplify_eq.
  { rewrite !elem_of_cons. auto. }
  destruct (IH Hin). split; by right.
Qed.

Lemma walk_pairs_consecutive l :
  walk_pairs l ≡ₚ consecutive_pairs l ++ (prod_swap <$> consecutive_pairs l).
Proof.
  unfold consecutive_pairs. induction l as [|x l IH]; [done|].
  destruct l as [|y l]; [done|].
  change (walk_pairs (x :: y :: l)) with ((x, y) :: (y, x) :: walk_pairs (y :: l)).
  rewrite IH. csimpl. apply perm_skip. by rewrite <-Permutation_middle.
Qed.

Lemma length_walk_pairs l : length (walk_pairs l) = (2 * (length l - 1))%nat.
Proof.
  induction l as [|x l IH]; [done|]. destruct l as [|y l]; [done|].
  change (walk_pairs (x :: y :: l)) with ((x, y) :: (y, x) :: walk_pairs (y :: l)).
  simpl in *. rewrite IH. lia.
Qed.

Lemma out_deg_perm R R' x : R ≡ₚ R' → out_deg R x = out_deg R' x.
Proof. unfold out_deg. by intros ->. Qed.

Lemma out_deg_cons u w R x :
  out_deg ((u, w) :: R) x = ((if decide (u = x) then 1 else 0) + out_deg R x)%nat.
Proof. unfold out_deg. rewrite filter_cons. simpl. by case_decide. Qed.

Lemma out_deg_zero R x : (∀ y, (x, y) ∉ R) → out_deg R x = 0%nat.
Proof.
  unfold out_deg. intros Hx. induction R as [|[a b] R IH]; [done|].
  rewrite filter_cons. simpl. case_decide as Ha.
  - subst. destruct (Hx b). by left.
  - apply IH. intros y Hy. apply (Hx y). by right.
Qed.

(** ** The invariant is kept by pushes and pops *)

Section hierholzer.
Context (E : list (Z * Z)) (start : Z).

Hypothesis E_even : ∀ x, Nat.odd (out_deg E x) = false.

Lemma hinv_init : hinv E start start start [] [] E.
Proof.
  split; simpl; try done.
  - by rewrite app_nil_r.
  - intros x. rewrite E_even. symmetry. apply bool_decide_eq_false. tauto.
  - intros x y Hx. by apply elem_of_nil in Hx.
Qed.

Lemma hinv_push a u s c R w R' :
  hinv E start a u s c R → R ≡ₚ (u, w) :: (w, u) :: R' → hinv E start a w (u :: s) c R'.
Proof.
  intros [HE Hb Hf Hp Hd] HR. split.
  - rewrite HE, HR.
    change (walk_pairs (w :: u :: s)) with ((w, u) :: (u, w) :: walk_pairs (u :: s)).
    set (W := walk_pairs (u :: s)). simpl.
    rewrite perm_move2. apply Permutation_swap.
  - done.
  - done.
  - intros x. specialize (Hp x). rewrite (out_deg_perm _ _ x HR) in Hp.
    rewrite !out_deg_cons in Hp. rewrite !Nat.odd_add in Hp.
    destruct (Nat.odd (out_deg R' x)); repeat case_decide;
      repeat case_bool_decide; simpl in *; try done; subst; exfalso;
      naive_solver.
  - intros x y Hx Hin. apply (Hd x y Hx). rewrite HR. by do 2 right.
Qed.

Lemma hinv_top_stuck a u s c R :
  hinv E start a u s c R → (∀ y, (u, y) ∉ R) → a = u.
Proof.
  intros [_ _ _ Hp _] Hu. specialize (Hp u).
  rewrite (out_deg_zero R u Hu) in Hp. simpl in Hp.
  symmetry in Hp. apply bool_decide_eq_false in Hp.
  destruct (decide (a = u)); [done|]. destruct Hp. auto.
Qed.

Lemma hinv_pop a u x s c R :
  hinv E start a u (x :: s) c R → (∀ y, (u, y) ∉ R) → hinv E start x x s (c ++ [u]) R.
Proof.
  intros Hinv Hu. pose proof (hinv_top_stuck _ _ _ _ _ Hinv Hu) as ->.
  destruct Hinv as [HE Hb Hf Hp Hd]. split.
  - rewrite HE. apply Permutation_app_head.
    change (walk_pairs (u :: x :: s)) with ((u, x) :: (x, u) :: walk_pairs (x :: s)).
    set (W := walk_pairs (x :: s)).
    rewrite <-(assoc_L (++) c [u] [x]).
    change ([u] ++ [x]) with [u; x].
    rewrite walk_pairs_snoc. simpl. by rewrite perm_move2.
  - done.
  - rewrite <-Hf. by destruct c.
  - intros y. rewrite Hp. rewrite !bool_decide_eq_false_2; tauto.
  - intros y z Hy. apply elem_of_app in Hy as [Hy|Hy]; [by apply Hd|].
    apply list_elem_of_singleton in Hy as ->. apply Hu.
Qed.

Lemma hinv_pop_last a u c R :
  hinv E start a u [] c R → (∀ y, (u, y) ∉ R) → hfinal E start (c ++ [u]) R.
Proof.
  intros Hinv Hu. pose proof (hinv_top_stuck _ _ _ _ _ Hinv Hu) as ->.
  destruct Hinv as [HE Hb Hf Hp Hd]. simpl in *. split.
  - done.
  - done.
  - by rewrite last_snoc.
  - intros y z Hy. apply elem_of_app in Hy as [Hy|Hy]; [by apply Hd|].
    apply list_elem_of_singleton in Hy as ->. apply Hu.
Qed.

(** Whatever can be reached from the start is on the circuit. *)
Lemma hfinal_reachable C R z :
  hfinal E start C R → rtc (λ a b, (a, b) ∈ E) start z → z ∈ C.
Proof.
  intros [HE Hf Hl Hd] Hz. apply rtc_nsteps in Hz as [n Hz]. revert z Hz.
  induction n as [|n IH]; intros z Hz.
  - inversion Hz; subst. destruct C; simplify_eq/=. by left.
  - apply nsteps_inv_r in Hz as (y & Hy & Hyz).
    specialize (IH y Hy). rewrite HE in Hyz.
    apply elem_of_app in Hyz as [Hyz|Hyz]; [by destruct (Hd y z IH)|].
    by apply walk_pairs_elem in Hyz as [_ ?].
Qed.

Hypothesis E_connected : ∀ x y, (x, y) ∈ E → rtc (λ a b, (a, b) ∈ E) start x.

Lemma hfinal_all_consumed C R : hfinal E start C R → R = [].
Proof.
  intros HF. destruct R as [|[x y] R]; [done|]. exfalso.
  apply (hfinal_done _ _ _ _ HF x y); [|by left].
  apply (hfinal_reachable C ((x, y) :: R)); [done|]. apply (E_connected x y).
  rewrite (hfinal_edges _ _ _ _ HF). by left.
Qed.

End hierholzer.

(** Taking one undirected edge out of a duplicate-free list of pairs. *)
Lemma remove_two_perm (R R' : list (Z * Z)) e1 e2 :
  NoDup R → NoDup R' → e1 ≠ e2 → e1 ∈ R → e2 ∈ R →
  (∀ e, e ∈ R' ↔ e ∈ R ∧ e ≠ e1 ∧ e ≠ e2) →
  R ≡ₚ e1 :: e2 :: R'.
Proof.
  intros HR HR' Hne H1 H2 Hiff. apply NoDup_Permutation; [done| |].
  - rewrite !NoDup_cons, !not_elem_of_cons, !Hiff. tauto.
  - intros e. rewrite !elem_of_cons, Hiff.
    destruct (decide (e = e1)) as [->|]; [tauto|].
    destruct (decide (e = e2)) as [->|]; tauto.
Qed.

Lemma pair_set_eq (x y u w : Z) :
  ({[x; y]} : gset Z) = {[u; w]} ↔ (x = u ∧ y = w) ∨ (x = w ∧ y = u).
Proof.
  split.
  - intros Heq.
    assert (∀ z, z ∈ ({[x; y]} : gset Z) ↔ z ∈ ({[u; w]} : gset Z)) as Hz
      by (by rewrite Heq).
    pose proof (Hz x) as Hx. pose proof (Hz y) as Hy.
    pose proof (Hz u) as Hu. pose proof (Hz w) as Hw.
    rewrite !elem_of_union, !elem_of_singleton in Hx, Hy, Hu, Hw. lia.
  - intros [[-> ->]|[-> ->]]; [done|]. apply (comm_L (∪)).
Qed.

(** ** Variant 3: the list of seen edges *)

Section variant_3.
Context (G : Graph) (start : Z).
Context (Hwf : wf_graph G).

Lemma elem_of_unseen seen x y :
  (x, y) ∈ unseen G seen ↔ (x, y) ∈ dir_edges G ∧ ({[x; y]} : gset Z) ∉ seen.
Proof. unfold unseen. rewrite list_elem_of_filter. simpl. tauto. Qed.

Lemma unseen_NoDup seen : NoDup (unseen G seen).
Proof. apply NoDup_filter, dir_edges_NoDup, Hwf. Qed.

Lemma unseen_mark seen u w :
  (u, w) ∈ unseen G seen →
  unseen G seen ≡ₚ (u, w) :: (w, u) :: unseen G (seen ++ [{[u; w]}]).
Proof.
  intros Huw. pose proof Huw as [HG Hns]%elem_of_unseen.
  assert (u ≠ w) as Hne by (intros ->; by apply (dir_edges_irrefl G Hwf w)).
  apply remove_two_perm; try apply unseen_NoDup; try done.
  - congruence.
  - apply elem_of_unseen. split; [by apply dir_edges_sym|].
    by rewrite (comm_L (∪)).
  - intros [x y]. rewrite !elem_of_unseen, not_elem_of_app.
    rewrite list_elem_of_singleton, pair_set_eq.
    split; [intros (? & ? & Hxy) | intros ([? ?] & ? & ?)]; split_and!; try done.
    + intros [= -> ->]. apply Hxy. by left.
    + intros [= -> ->]. apply Hxy. by right.
    + intros [[-> ->]|[-> ->]]; done.
Qed.

Lemma loop_3_correct fuel a top s seen c :
  hinv (dir_edges G) start a top s c (unseen G seen) →
  top ∈ nx.nodes G →
  (length (unseen G seen) + length (top :: s) < fuel)%nat →
  ∃ C R, loop_3 fuel G (top :: s) seen c = Return (Some C) ∧
         hfinal (dir_edges G) start C R.
Proof.
  revert a top s seen c.
  induction fuel as [|fuel IH]; intros a top s seen c Hinv Htop Hfuel; [lia|].
  simpl. apply adj_is_Some in Htop as [nbrs Hadj]. rewrite Hadj.
  destruct (filter _ nbrs) as [|w ws] eqn:HT; csimpl.
  - assert (∀ y, (top, y) ∉ unseen G seen) as Hstuck.
    { intros y [HG Hns]%elem_of_unseen.
      apply dir_edges_adj in HG as (ns & Hns' & Hy); [|apply Hwf]. simplify_eq.
      assert (y ∈ filter (λ neighbour, ({[top; neighbour]} : gset Z) ∉ seen) nbrs) as Hin
        by (by apply list_elem_of_filter).
      rewrite HT in Hin. by apply elem_of_nil in Hin. }
    destruct s as [|x s].
    + destruct fuel as [|fuel]; [simpl in Hfuel; lia|]. simpl.
      do 2 eexists. split; [done|]. by eapply hinv_pop_last.
    + assert (x ∈ nx.nodes G) as Hx.
      { destruct Hinv as [HE _ _ _ _].
        apply (dir_edges_node G x top). rewrite HE.
        apply elem_of_app. right. apply elem_of_app. left.
        right. by left. }
      eapply IH; [by eapply hinv_pop | done | simpl in *; lia].
  - assert (w ∈ filter (λ neighbour, ({[top; neighbour]} : gset Z) ∉ seen) nbrs) as Hw
      by (rewrite HT; by left).
    apply list_elem_of_filter in Hw as [Hns Hw].
    assert ((top, w) ∈ unseen G seen) as Hin.
    { apply elem_of_unseen. split; [|done]. apply dir_edges_adj; [apply Hwf|eauto]. }
    pose proof (unseen_mark seen top w Hin) as HP.
    eapply IH; [by eapply hinv_push | |].
    + apply (dir_edges_node G w top), dir_edges_sym; [done|].
      by apply elem_of_unseen in Hin as [? _].
    + apply Permutation_length in HP. simpl in *. lia.
Qed.

End variant_3.

(** ** From the Eulerian test to the hypotheses of the invariant *)

Lemma out_deg_app R1 R2 x : out_deg (R1 ++ R2) x = (out_deg R1 x + out_deg R2 x)%nat.
Proof. unfold out_deg. by rewrite filter_app, length_app. Qed.

Lemma out_deg_row (u : Z) (nbrs : list Z) x :
  out_deg ((λ v, (u, v)) <$> nbrs) x = if decide (u = x) then length nbrs else 0%nat.
Proof.
  induction nbrs as [|v nbrs IH]; csimpl; [by case_decide|].
  rewrite out_deg_cons, IH. by case_decide.
Qed.

Lemma out_deg_dir_edges G x :
  NoDup (nx.nodes G) →
  out_deg (dir_edges G) x = length (default [] (nx.adj G x)).
Proof.
  unfold nx.nodes, dir_edges. induction G as [|[u ns] G IH]; csimpl; [done|].
  intros [Hu Hnd]%NoDup_cons. rewrite out_deg_app, out_deg_row.
  case_decide as Hux; [|by rewrite IH].
  subst. rewrite out_deg_zero; [simpl; lia|].
  intros y Hy. apply Hu. by apply (dir_edges_node G x y).
Qed.

Lemma eulerian_even G :
  wf_graph G → all_even G → ∀ x, Nat.odd (out_deg (dir_edges G) x) = false.
Proof.
  intros Hwf Heven x. rewrite out_deg_dir_edges by apply Hwf.
  destruct (nx.adj G x) as [nbrs|] eqn:Hadj; [|done]. simpl.
  apply adj_Some_elem, Heven in Hadj.
  rewrite <-Nat.negb_even. apply Nat.even_spec in Hadj. by rewrite Hadj.
Qed.

Lemma eulerian_connected G start :
  wf_graph G → connected G → start ∈ nx.nodes G →
  ∀ x y, (x, y) ∈ dir_edges G → rtc (λ a b, (a, b) ∈ dir_edges G) start x.
Proof.
  intros Hwf Hconn Hstart x y Hxy. apply Hconn; [done|].
  by apply (dir_edges_node G x y).
Qed.

(** ** What the claims ask of a returned circuit *)

Lemma has_edge_dir_edges G u v :
  NoDup (nx.nodes G) → has_edge G u v = true ↔ (u, v) ∈ dir_edges G.
Proof.
  intros Hnd. rewrite dir_edges_adj by done. unfold has_edge.
  destruct (nx.adj G u) as [nbrs|].
  - rewrite bool_decide_eq_true. split; [eauto|]. by intros (? & [= <-] & ?).
  - split; [done|]. by intros (? & [=] & _).
Qed.

Lemma occurrences_NoDup e l :
  NoDup l → occurrences e l = if decide (e ∈ l) then 1%nat else 0%nat.
Proof.
  unfold occurrences. induction 1 as [|x l Hx Hnd IH]; [done|].
  rewrite filter_cons. destruct (decide (x = e)) as [->|Hne]; simpl.
  - rewrite decide_True by (by left). rewrite decide_False in IH by done.
    by rewrite IH.
  - rewrite IH. destruct (decide (e ∈ l)) as [He|He].
    + rewrite decide_True; [done | by right].
    + rewrite decide_False; [done|]. by intros [->|]%elem_of_cons.
Qed.

Lemma occurrences_walk_pairs u v C :
  occurrences (u, v) (walk_pairs C)
  = (occurrences (u, v) (consecutive_pairs C) +
     occurrences (v, u) (consecutive_pairs C))%nat.
Proof.
  unfold occurrences. rewrite walk_pairs_consecutive, filter_app, length_app.
  f_equal. induction (consecutive_pairs C) as [|[a b] l IH]; [done|].
  csimpl. rewrite !filter_cons. simpl.
  destruct (decide ((b, a) = (u, v))), (decide ((a, b) = (v, u)));
    simplify_eq/=; by rewrite IH.
Qed.

Lemma wf_sum_degree G :
  wf_graph G →
  sum_list ((λ p, nx.degree p.1 p.2) <$> G) = length (dir_edges G).
Proof.
  intros Hwf. rewrite length_dir_edges. f_equal. apply list_fmap_ext.
  intros i [u nbrs] Hi. apply (wf_degree G u nbrs Hwf).
  by eapply list_elem_of_lookup_2.
Qed.

(** The facts about a circuit whose walk uses up the pairs of [G]. *)
Lemma hfinal_eulerian_circuit G start C :
  wf_graph G → hfinal (dir_edges G) start C [] → eulerian_circuit_of G C.
Proof.
  intros Hwf [HE Hf Hl _]. simpl in HE. split_and!.
  - eauto.
  - unfold nx.number_of_edges. rewrite wf_sum_degree, HE, length_walk_pairs by done.
    destruct C as [|c0 C]; [done|]. cbn [length].
    replace (2 * (S (length C) - 1))%nat with (length C * 2)%nat by lia.
    rewrite Nat.div_mul by done. lia.
  - intros u v. rewrite <-occurrences_walk_pairs.
    unfold occurrences. rewrite <-HE. fold (occurrences (u, v) (dir_edges G)).
    rewrite occurrences_NoDup by (by apply dir_edges_NoDup).
    pose proof (has_edge_dir_edges G u v (wf_nodes_NoDup G Hwf)) as Hiff.
    destruct (has_edge G u v).
    + rewrite decide_True; [done | by apply Hiff].
    + rewrite decide_False; [done|]. intros ?%Hiff. done.
Qed.

Lemma filter_all {A} (P : A → Prop) `{∀ x, Decision (P x)} (l : list A) :
  (∀ x, x ∈ l → P x) → filter P l = l.
Proof.
  induction l as [|x l IH]; [done|]. intros Hall.
  rewrite filter_cons, decide_True by (apply Hall; by left).
  f_equal. apply IH. intros y Hy. apply Hall. by right.
Qed.

Lemma Eulerian_circuit_3_correct G fuel :
  wf_graph G → nx.is_eulerian G = Return true → 0 ∈ nx.nodes G →
  (circuit_fuel G ≤ fuel)%nat →
  ∃ C, Eulerian_circuit_3 fuel G = (Return (Some C), G) ∧
       eulerian_circuit_of G C ∧ head C = Some 0 ∧ last C = Some 0.
Proof.
  intros Hwf Heul H0 Hfuel. unfold Eulerian_circuit_3. rewrite Heul.
  apply is_eulerian_true in Heul as (_ & Heven & Hconn); [|done].
  assert (unseen G [] = dir_edges G) as Hun.
  { apply filter_all. intros p _. apply not_elem_of_nil. }
  destruct (loop_3_correct G 0 Hwf fuel 0 0 [] [] []) as (C & R & -> & HF).
  - rewrite Hun. by apply hinv_init, eulerian_even.
  - done.
  - rewrite Hun. unfold circuit_fuel in Hfuel. simpl. lia.
  - exists C. split; [done|].
    pose proof (hfinal_all_consumed _ _ (eulerian_connected G 0 Hwf Hconn H0) C R HF) as ->.
    split; [by eapply hfinal_eulerian_circuit|]. split; apply HF.
Qed.

(** ** Variant 1: edges removed from the graph *)

Lemma wf_simple_adj G : wf_graph G → simple_adj G.
Proof.
  intros Hwf. split_and!.
  - apply Hwf.
  - by apply dir_edges_NoDup.
  - by apply dir_edges_sym.
  - by apply dir_edges_irrefl.
Qed.

Lemma set_adj_nodes G n nbrs' : nx.nodes (nx.set_adj G n nbrs') = nx.nodes G.
Proof.
  unfold nx.nodes. induction G as [|[u ns] G IH]; csimpl; [done|].
  case_decide; csimpl; [done | by rewrite IH].
Qed.

Lemma filter_row (u v : Z) (nbrs : list Z) :
  filter (λ e, e ≠ (u, v)) ((λ w, (u, w)) <$> nbrs)
  = (λ w, (u, w)) <$> filter (λ w, w ≠ v) nbrs.
Proof.
  induction nbrs as [|w nbrs IH]; [done|]. csimpl.
  rewrite !filter_cons, IH.
  destruct (decide (w = v)) as [->|Hne].
  - rewrite decide_False by (by intros []). by rewrite decide_False by (by intros []).
  - rewrite decide_True by congruence. by rewrite decide_True by done.
Qed.

Lemma del_nbr_dir_edges G u v G' :
  NoDup (nx.nodes G) → nx.del_nbr G u v = Some G' →
  nx.nodes G' = nx.nodes G ∧
  dir_edges G' = filter (λ e, e ≠ (u, v)) (dir_edges G).
Proof.
  unfold nx.del_nbr. intros Hnd Hdel.
  destruct (nx.adj G u) as [nbrs|] eqn:Hadj; [|done].
  case_decide; [|done]. simplify_eq. split; [apply set_adj_nodes|].
  clear H. revert Hnd Hadj. unfold nx.nodes, dir_edges.
  induction G as [|[x ns] G IH]; csimpl; [done|].
  intros [Hx Hnd]%NoDup_cons. rewrite filter_app. case_decide as Hxu.
  - intros [= ->]. subst. csimpl. rewrite filter_row. f_equal.
    symmetry. apply filter_all. intros [a b] Hab [= -> ->].
    apply Hx. by apply (dir_edges_node G u v).
  - intros Hadj. csimpl. rewrite IH by done. f_equal.
    symmetry. apply filter_all. intros [a b] Hab [= -> ->].
    apply list_elem_of_fmap in Hab as (w & [= ->] & _). done.
Qed.

Lemma del_nbr_Some G u v :
  NoDup (nx.nodes G) → (u, v) ∈ dir_edges G → is_Some (nx.del_nbr G u v).
Proof.
  intros Hnd (nbrs & Hadj & Hv)%dir_edges_adj; [|done].
  unfold nx.del_nbr. rewrite Hadj, decide_True by done. eauto.
Qed.

Lemma remove_edge_spec G u v :
  simple_adj G → (u, v) ∈ dir_edges G →
  ∃ G', nx.remove_edge G u v = (Return (), G') ∧ simple_adj G' ∧
        nx.nodes G' = nx.nodes G ∧
        dir_edges G ≡ₚ (u, v) :: (v, u) :: dir_edges G'.
Proof.
  intros (Hnd & HndE & Hsym & Hirr) Huv. unfold nx.remove_edge.
  assert (u ≠ v) as Hne by (intros ->; by apply (Hirr v)).
  destruct (del_nbr_Some G u v Hnd Huv) as [G1 Hdel1]. rewrite Hdel1.
  destruct (del_nbr_dir_edges G u v G1 Hnd Hdel1) as [Hn1 HE1].
  rewrite decide_False by done.
  assert (NoDup (nx.nodes G1)) as Hnd1 by (by rewrite Hn1).
  assert ((v, u) ∈ dir_edges G1) as Hvu.
  { rewrite HE1. apply list_elem_of_filter. split; [congruence | by apply Hsym]. }
  destruct (del_nbr_Some G1 v u Hnd1 Hvu) as [G2 Hdel2]. rewrite Hdel2.
  destruct (del_nbr_dir_edges G1 v u G2 Hnd1 Hdel2) as [Hn2 HE2].
  assert (∀ e, e ∈ dir_edges G2 ↔ e ∈ dir_edges G ∧ e ≠ (u, v) ∧ e ≠ (v, u)) as Hmem.
  { intros e. rewrite HE2, HE1, !list_elem_of_filter. tauto. }
  assert (NoDup (dir_edges G2)) as HndE2.
  { rewrite HE2, HE1. by do 2 apply NoDup_filter. }
  exists G2. split; [done|]. split; [split_and!|split].
  - by rewrite Hn2.
  - done.
  - intros x y [Hxy [Hn Hn']]%Hmem. apply Hmem.
    split_and!; [by apply Hsym | |]; intros [= -> ->]; done.
  - intros x [Hxx _]%Hmem. by apply (Hirr x).
  - congruence.
  - apply remove_two_perm; try done; [congruence | by apply Hsym].
Qed.

Lemma loop_1_correct E start fuel G a top s c :
  simple_adj G →
  hinv E start a top s c (dir_edges G) →
  Forall (λ x, x ∈ nx.nodes G) (top :: s) →
  (length (dir_edges G) + length (top :: s) < fuel)%nat →
  ∃ C G', loop_1 fuel G (top :: s) c = (Return (Some C), G') ∧
          hfinal E start C (dir_edges G') ∧ nx.nodes G' = nx.nodes G.
Proof.
  revert G a top s c.
  induction fuel as [|fuel IH]; intros G a top s c Hsim Hinv Hst Hfuel; [lia|].
  simpl. pose proof Hst as [Htop Hs]%Forall_cons.
  apply adj_is_Some in Htop as [nbrs Hadj].
  unfold nx.edges_at. rewrite Hadj, fmap_last.
  destruct (last nbrs) as [w|] eqn:Hlast; csimpl.
  - assert ((top, w) ∈ dir_edges G) as Hin.
    { apply dir_edges_adj; [apply Hsim|]. eauto using last_Some_elem_of. }
    destruct (remove_edge_spec G top w Hsim Hin) as (G' & -> & Hsim' & Hn & HP).
    destruct (IH G' a w (top :: s) c) as (C & G'' & -> & HF & Hn'); try done.
    + by eapply hinv_push.
    + rewrite Hn. apply Forall_cons. split; [|done].
      destruct Hsim as (_ & _ & Hsym & _). by apply (dir_edges_node G w top), Hsym.
    + apply Permutation_length in HP. simpl in *. lia.
    + exists C, G''. split_and!; [done | done | congruence].
  - apply last_None in Hlast as ->.
    assert (∀ y, (top, y) ∉ dir_edges G) as Hstuck.
    { intros y (ns & Hns & Hy)%dir_edges_adj; [|apply Hsim].
      simplify_eq. by apply elem_of_nil in Hy. }
    destruct s as [|x s].
    + destruct fuel as [|fuel]; [simpl in Hfuel; lia|]. simpl.
      exists (c ++ [top]), G. split_and!; [done | by eapply hinv_pop_last | done].
    + eapply IH; [done | by eapply hinv_pop | done | simpl in *; lia].
Qed.

Lemma dir_edges_nil_adj G :
  dir_edges G = [] → G = (λ n, (n, [])) <$> nx.nodes G.
Proof.
  unfold dir_edges, nx.nodes. induction G as [|[u ns] G IH]; csimpl; [done|].
  intros [Hns HG]%app_eq_nil. apply fmap_nil_inv in Hns as ->.
  f_equal. by apply IH.
Qed.

Lemma Eulerian_circuit_1_correct G fuel :
  wf_graph G → nx.is_eulerian G = Return true → 0 ∈ nx.nodes G →
  (circuit_fuel G ≤ fuel)%nat →
  ∃ C, Eulerian_circuit_1 fuel G
         = (Return (Some C), (λ n, (n, [])) <$> nx.nodes G) ∧
       eulerian_circuit_of G C ∧ head C = Some 0 ∧ last C = Some 0.
Proof.
  intros Hwf Heul H0 Hfuel. unfold Eulerian_circuit_1. rewrite Heul.
  apply is_eulerian_true in Heul as (_ & Heven & Hconn); [|done].
  destruct (loop_1_correct (dir_edges G) 0 fuel G 0 0 [] [])
    as (C & G' & -> & HF & Hn).
  - by apply wf_simple_adj.
  - by apply hinv_init, eulerian_even.
  - by apply Forall_singleton.
  - unfold circuit_fuel in Hfuel. simpl. lia.
  - exists C.
    pose proof (hfinal_all_consumed _ _ (eulerian_connected G 0 Hwf Hconn H0)
                  C _ HF) as HG'.
    rewrite HG' in HF. split_and!.
    + by rewrite (dir_edges_nil_adj G' HG'), Hn.
    + by eapply hfinal_eulerian_circuit.
    + apply HF.
    + apply HF.
Qed.

(** ** Variant 2: the adjacency matrix *)

Lemma elem_of_all_pairs n x y :
  (x, y) ∈ all_pairs n ↔ (0 ≤ x < Z.of_nat n) ∧ (0 ≤ y < Z.of_nat n).
Proof.
  unfold all_pairs. rewrite list_elem_of_bind. split.
  - intros (i & Hin & Hi). apply list_elem_of_fmap in Hin as (j & [= -> ->] & Hj).
    apply elem_of_seqZ in Hi, Hj. lia.
  - intros [Hx Hy]. exists x. split; [|apply elem_of_seqZ; lia].
    apply list_elem_of_fmap. exists y. split; [done|]. apply elem_of_seqZ. lia.
Qed.

Lemma all_pairs_NoDup n : NoDup (all_pairs n).
Proof.
  unfold all_pairs. generalize (NoDup_seqZ 0 (Z.of_nat n)).
  generalize (seqZ 0 (Z.of_nat n)) at 1 3 as rows.
  intros rows Hrows. induction Hrows as [|i rows Hi Hrows IH]; csimpl; [constructor|].
  apply NoDup_app. split_and!.
  - apply NoDup_fmap_2; [|apply NoDup_seqZ]. by intros ?? [=].
  - intros [a b] (j & [= -> ->] & _)%list_elem_of_fmap
      (i' & (j' & [= -> ->] & _)%list_elem_of_fmap & Hi')%list_elem_of_bind.
    done.
  - done.
Qed.

Lemma elem_of_matrix_edges F x y :
  (x, y) ∈ matrix_edges F ↔
  (0 ≤ x < Z.of_nat (length F)) ∧ (0 ≤ y < Z.of_nat (length F)) ∧
  entry F (Z.to_nat x) (Z.to_nat y) ≠ 0.
Proof.
  unfold matrix_edges. rewrite list_elem_of_filter, elem_of_all_pairs. simpl. tauto.
Qed.

Lemma matrix_edges_NoDup F : NoDup (matrix_edges F).
Proof. apply NoDup_filter, all_pairs_NoDup. Qed.

(** *** NumPy indexing within range *)

Lemma index_in_range n i :
  0 ≤ i < Z.of_nat n → np.index n i = Some (Z.to_nat i).
Proof. intros Hi. unfold np.index. by rewrite decide_True. Qed.

Lemma getitem_in_range {A} (a : list A) i :
  0 ≤ i < Z.of_nat (length a) → np.getitem a i = a !! Z.to_nat i.
Proof. intros Hi. unfold np.getitem. by rewrite index_in_range. Qed.

Lemma setitem_in_range {A} (a : list A) i x :
  0 ≤ i < Z.of_nat (length a) → np.setitem a i x = Some (<[Z.to_nat i := x]> a).
Proof. intros Hi. unfold np.setitem. by rewrite index_in_range. Qed.

Lemma square_row n F i row : square n F → F !! i = Some row → length row = n.
Proof.
  intros [_ HF] Hi. rewrite Forall_forall in HF. apply HF.
  apply list_elem_of_In. by eapply list_elem_of_In, list_elem_of_lookup_2.
Qed.

Lemma setitem2_in_range n F i j x :
  square n F → 0 ≤ i < Z.of_nat n → 0 ≤ j < Z.of_nat n →
  ∃ row, F !! Z.to_nat i = Some row ∧
         np.setitem2 F i j x
         = Some (<[Z.to_nat i := <[Z.to_nat j := x]> row]> F).
Proof.
  intros Hsq Hi Hj. pose proof Hsq as [Hlen _]. unfold np.setitem2.
  rewrite getitem_in_range by lia.
  destruct (lookup_lt_is_Some_2 F (Z.to_nat i)) as [row Hrow]; [lia|].
  exists row. split; [done|]. rewrite Hrow. csimpl.
  rewrite setitem_in_range by (rewrite (square_row n F _ row Hsq Hrow); lia).
  csimpl. by rewrite setitem_in_range by lia.
Qed.

Lemma square_insert n F i row :
  square n F → length row = n → square n (<[i := row]> F).
Proof.
  intros [Hlen HF] Hrow. split; [by rewrite length_insert|].
  apply Forall_insert; done.
Qed.

Lemma entry_insert F i j x row i' j' :
  F !! i = Some row →
  entry (<[i := <[j := x]> row]> F) i' j'
  = if decide (i' = i ∧ j' = j ∧ (j < length row)%nat) then x else entry F i' j'.
Proof.
  intros Hrow. unfold entry. destruct (decide (i' = i)) as [->|Hne].
  - rewrite list_lookup_insert_eq by (by eapply lookup_lt_Some).
    rewrite Hrow. csimpl. destruct (decide (j' = j)) as [->|Hnej].
    + destruct (decide (j < length row)%nat).
      * rewrite list_lookup_insert_eq by done. by rewrite decide_True.
      * rewrite list_insert_ge by lia. rewrite decide_False by tauto. done.
    + rewrite list_lookup_insert_ne by done. rewrite decide_False by tauto. done.
  - rewrite list_lookup_insert_ne by done. rewrite decide_False by tauto. done.
Qed.

Lemma any_true row :
  np.any row = true → ∃ k v, row !! k = Some v ∧ v ≠ 0.
Proof.
  unfold np.any. intros (v & Hin & Hv)%existsb_exists.
  apply list_elem_of_In, list_elem_of_lookup_1 in Hin as [k Hk].
  exists k, v. split; [done|]. apply negb_true_iff, Z.eqb_neq in Hv. done.
Qed.

Lemma any_false row :
  np.any row = false → ∀ k v, row !! k = Some v → v = 0.
Proof.
  unfold np.any. intros Hany k v Hk. destruct (decide (v = 0)) as [|Hne]; [done|].
  assert (existsb (λ x, negb (x =? 0)) row = true) as Hex; [|congruence].
  apply existsb_exists. exists v. split.
  - by eapply list_elem_of_In, list_elem_of_lookup_2.
  - by apply negb_true_iff, Z.eqb_neq.
Qed.

Lemma nonzero_from_head i row j rest :
  np.nonzero_from i row = j :: rest →
  ∃ k v, j = i + Z.of_nat k ∧ row !! k = Some v ∧ v ≠ 0.
Proof.
  revert i. induction row as [|x row IH]; intros i; simpl; [done|].
  case_decide as Hx.
  - intros (k & v & -> & Hk & Hv)%IH. exists (S k), v. split_and!; [lia|done..].
  - intros [= <- _]. exists 0%nat, x. split_and!; [lia|done..].
Qed.

Lemma nonzero_from_nil i row k v :
  np.nonzero_from i row = [] → row !! k = Some v → v = 0.
Proof.
  revert i k. induction row as [|x row IH]; intros i k; simpl; [done|].
  case_decide as Hx; [|done]. intros Hnil. destruct k as [|k]; simpl.
  - by intros [= <-].
  - by eapply IH.
Qed.

(** [F[i][j] = 0; F[j][i] = 0] within range. *)
Lemma matrix_clear_entries n F i j :
  square n F → 0 ≤ i < Z.of_nat n → 0 ≤ j < Z.of_nat n →
  ∃ F1 F2, np.setitem2 F i j 0 = Some F1 ∧ np.setitem2 F1 j i 0 = Some F2 ∧
           square n F2 ∧
           ∀ i' j', entry F2 i' j'
             = if decide ((i' = Z.to_nat i ∧ j' = Z.to_nat j) ∨
                          (i' = Z.to_nat j ∧ j' = Z.to_nat i))
               then 0 else entry F i' j'.
Proof.
  intros Hsq Hi Hj.
  destruct (setitem2_in_range n F i j 0 Hsq Hi Hj) as (row & Hrow & HF1).
  set (F1 := <[Z.to_nat i := <[Z.to_nat j := 0]> row]> F) in *.
  pose proof (square_row n F _ row Hsq Hrow) as Hlen.
  assert (square n F1) as Hsq1.
  { apply square_insert; [done|]. by rewrite length_insert. }
  destruct (setitem2_in_range n F1 j i 0 Hsq1 Hj Hi) as (row' & Hrow' & HF2).
  set (F2 := <[Z.to_nat j := <[Z.to_nat i := 0]> row']> F1) in *.
  pose proof (square_row n F1 _ row' Hsq1 Hrow') as Hlen'.
  exists F1, F2. split; [done|]. split; [done|]. split.
  { apply square_insert; [done|]. by rewrite length_insert. }
  intros i' j'. unfold F2. rewrite (entry_insert F1 _ _ _ row') by done.
  unfold F1. rewrite (entry_insert F _ _ _ row) by done.
  repeat case_decide; try done; exfalso; intuition lia.
Qed.

(** Clearing an edge of a symmetric matrix takes out its two pairs. *)
Lemma matrix_clear_edge n F i j :
  simple_matrix n F → 0 ≤ i < Z.of_nat n → 0 ≤ j < Z.of_nat n →
  entry F (Z.to_nat i) (Z.to_nat j) ≠ 0 →
  ∃ F1 F2, np.setitem2 F i j 0 = Some F1 ∧ np.setitem2 F1 j i 0 = Some F2 ∧
           simple_matrix n F2 ∧
           matrix_edges F ≡ₚ (i, j) :: (j, i) :: matrix_edges F2.
Proof.
  intros (Hsq & Hsym & Hirr) Hi Hj Hij.
  assert (i ≠ j) as Hne by (intros ->; by rewrite Hirr in Hij).
  destruct (matrix_clear_entries n F i j Hsq Hi Hj)
    as (F1 & F2 & HF1 & HF2 & Hsq2 & Hentry).
  exists F1, F2. split; [done|]. split; [done|].
  split; [split; [done|split]|].
  - intros i' j'. rewrite !Hentry. repeat case_decide; try done.
    + intuition lia.
    + apply Hsym.
  - intros i'. rewrite Hentry. case_decide; [done | apply Hirr].
  - destruct Hsq as [HlenF _], Hsq2 as [HlenF2 _].
    apply remove_two_perm; try apply matrix_edges_NoDup.
    + congruence.
    + apply elem_of_matrix_edges. rewrite HlenF. done.
    + apply elem_of_matrix_edges. rewrite HlenF.
      split; [done|]. split; [done | by apply Hsym].
    + intros [x y]. rewrite !elem_of_matrix_edges, HlenF, HlenF2, Hentry.
      split.
      * intros (Hx & Hy & Hxy). case_decide as Hd; [done|].
        split; [done|]. split; intros [= -> ->]; apply Hd; auto.
      * intros ((Hx & Hy & Hxy) & Hn1 & Hn2). split; [done|]. split; [done|].
        rewrite decide_False; [done|].
        intros [[? ?]|[? ?]]; [apply Hn1 | apply Hn2]; f_equal; lia.
Qed.

Lemma loop_2_correct E start n fuel F a top s c :
  simple_matrix n F →
  hinv E start a top s c (matrix_edges F) →
  Forall (λ x, 0 ≤ x < Z.of_nat n) (top :: s) →
  Forall (λ x, 0 ≤ x < Z.of_nat n) c →
  (length (matrix_edges F) + length (top :: s) < fuel)%nat →
  ∃ C R, loop_2 fuel F (top :: s) c = Return (Some C) ∧
         hfinal E start C R ∧ Forall (λ x, 0 ≤ x < Z.of_nat n) C.
Proof.
  revert F a top s c.
  induction fuel as [|fuel IH]; intros F a top s c Hsim Hinv Hst Hc Hfuel; [lia|].
  simpl. pose proof Hst as [Htop Hs]%Forall_cons.
  pose proof Hsim as (Hsq & _ & _). pose proof Hsq as [HlenF _].
  rewrite getitem_in_range by lia.
  destruct (lookup_lt_is_Some_2 F (Z.to_nat top)) as [row Hrow]; [lia|].
  rewrite Hrow. pose proof (square_row n F _ row Hsq Hrow) as Hlen.
  destruct (np.any row) eqn:Hany.
  - unfold np.nonzero. destruct (np.nonzero_from 0 row) as [|edge rest] eqn:Hnz.
    { apply any_true in Hany as (k & v & Hk & Hv).
      destruct Hv. by eapply nonzero_from_nil. }
    apply nonzero_from_head in Hnz as (k & v & -> & Hk & Hv).
    pose proof (lookup_lt_Some _ _ _ Hk) as Hklt.
    assert (entry F (Z.to_nat top) (Z.to_nat (0 + Z.of_nat k)) ≠ 0) as Hentry.
    { unfold entry. rewrite Hrow. csimpl.
      replace (Z.to_nat (0 + Z.of_nat k)) with k by lia. by rewrite Hk. }
    destruct (matrix_clear_edge n F top (0 + Z.of_nat k) Hsim)
      as (F1 & F2 & -> & -> & Hsim2 & HP); [lia | lia | done |].
    eapply IH; [done | by eapply hinv_push | | done |].
    + apply Forall_cons. split; [lia | done].
    + apply Permutation_length in HP. simpl in *. lia.
  - assert (∀ y, (top, y) ∉ matrix_edges F) as Hstuck.
    { intros y (_ & _ & Hy)%elem_of_matrix_edges. apply Hy.
      unfold entry. rewrite Hrow. csimpl.
      destruct (row !! Z.to_nat y) as [v|] eqn:Hv; [|done].
      simpl. by eapply any_false. }
    assert (Forall (λ x, 0 ≤ x < Z.of_nat n) (c ++ [top])) as Hc'.
    { apply Forall_app. split; [done|]. by apply Forall_singleton. }
    destruct s as [|x s].
    + destruct fuel as [|fuel]; [simpl in Hfuel; lia|]. simpl.
      exists (c ++ [top]), (matrix_edges F).
      split_and!; [done | by eapply hinv_pop_last | done].
    + eapply IH; [done | by eapply hinv_pop | done | done | simpl in *; lia].
Qed.

(** *** The matrix of a graph *)

Lemma index_of_lookup l u : u ∈ l → l !! index_of l u = Some u.
Proof.
  induction l as [|x l IH]; simpl; [by intros ?%elem_of_nil|].
  intros Hin. case_decide as Hx; [by subst|].
  apply elem_of_cons in Hin as [->|Hin]; [done | by apply IH].
Qed.

Lemma lookup_index_of l i u : NoDup l → l !! i = Some u → index_of l u = i.
Proof.
  intros Hnd Hi. eapply NoDup_lookup; [done| |done].
  apply index_of_lookup. by eapply list_elem_of_lookup_2.
Qed.

Lemma lookup_graph_entry G i u nbrs :
  NoDup (nx.nodes G) →
  G !! i = Some (u, nbrs) ↔ nx.nodes G !! i = Some u ∧ nx.adj G u = Some nbrs.
Proof.
  intros Hnd. unfold nx.nodes. rewrite list_lookup_fmap. split.
  - intros Hi. rewrite Hi. split; [done|].
    apply elem_adj_Some; [done|]. by eapply list_elem_of_lookup_2.
  - intros [Hi Hadj]. destruct (G !! i) as [[u' nbrs']|] eqn:HGi; simplify_eq/=.
    apply list_elem_of_lookup_2, elem_adj_Some in HGi; [|done]. congruence.
Qed.

Lemma adjacency_matrix_square G :
  square (length G) (nx.adjacency_matrix G).
Proof.
  unfold square, nx.adjacency_matrix. rewrite length_fmap. split; [done|].
  apply Forall_fmap, Forall_forall. intros p _. simpl.
  unfold nx.nodes. by rewrite !length_fmap.
Qed.

Lemma entry_adjacency_matrix G i j :
  NoDup (nx.nodes G) →
  entry (nx.adjacency_matrix G) i j ≠ 0 ↔
  ∃ u v, nx.nodes G !! i = Some u ∧ nx.nodes G !! j = Some v ∧
         (u, v) ∈ dir_edges G.
Proof.
  intros Hnd. unfold entry, nx.adjacency_matrix.
  rewrite list_lookup_fmap. split.
  - destruct (G !! i) as [[u nbrs]|] eqn:HGi; csimpl; [|done].
    rewrite list_lookup_fmap.
    destruct (nx.nodes G !! j) as [v|] eqn:Hj; csimpl; [|done].
    case_decide as Hv; [|done]. intros _.
    apply lookup_graph_entry in HGi as [Hi Hadj]; [|done].
    exists u, v. split_and!; [done..|]. apply dir_edges_adj; eauto.
  - intros (u & v & Hi & Hj & (nbrs & Hadj & Hv)%dir_edges_adj); [|done].
    assert (G !! i = Some (u, nbrs)) as -> by (by apply lookup_graph_entry).
    csimpl. rewrite list_lookup_fmap, Hj. csimpl. by rewrite decide_True.
Qed.

Lemma adjacency_matrix_simple G :
  wf_graph G → simple_matrix (length G) (nx.adjacency_matrix G).
Proof.
  intros Hwf. pose proof (wf_nodes_NoDup G Hwf) as Hnd.
  split; [apply adjacency_matrix_square|]. split.
  - intros i j. rewrite !entry_adjacency_matrix by done.
    intros (u & v & Hi & Hj & Huv). exists v, u.
    split_and!; [done..|]. by apply dir_edges_sym.
  - intros i. destruct (decide (entry (nx.adjacency_matrix G) i i = 0)) as [|Hne];
      [done|]. apply entry_adjacency_matrix in Hne as (u & v & Hi & Hj & Huv);
      [|done]. simplify_eq. by apply dir_edges_irrefl in Huv.
Qed.

Lemma matrix_edges_relabel G :
  wf_graph G →
  matrix_edges (nx.adjacency_matrix G) ≡ₚ relabel G <$> dir_edges G.
Proof.
  intros Hwf. pose proof (wf_nodes_NoDup G Hwf) as Hnd.
  assert (∀ x y, (x, y) ∈ dir_edges G → x ∈ nx.nodes G ∧ y ∈ nx.nodes G) as Hnodes.
  { intros x y Hxy. split; [by eapply dir_edges_node|].
    by eapply dir_edges_node, dir_edges_sym. }
  apply NoDup_Permutation.
  - apply matrix_edges_NoDup.
  - apply NoDup_fmap_2_strong; [|by apply dir_edges_NoDup].
    intros [x y] [x' y'] [Hx Hy]%Hnodes [Hx' Hy']%Hnodes [= H1 H2].
    apply Nat2Z.inj in H1, H2. simpl in *.
    apply index_of_lookup in Hx, Hy, Hx', Hy'.
    rewrite H1 in Hx. rewrite H2 in Hy. congruence.
  - intros [i j]. rewrite elem_of_matrix_edges, list_elem_of_fmap.
    rewrite entry_adjacency_matrix by done. split.
    + intros (Hi & Hj & u & v & Hu & Hv & Huv). exists (u, v). split; [|done].
      unfold relabel. simpl.
      rewrite (lookup_index_of _ _ _ Hnd Hu), (lookup_index_of _ _ _ Hnd Hv).
      f_equal; lia.
    + intros ([u v] & [= -> ->] & Huv). simpl.
      destruct (Hnodes u v Huv) as [Hu Hv].
      apply index_of_lookup in Hu, Hv.
      pose proof (lookup_lt_Some _ _ _ Hu) as Hult.
      pose proof (lookup_lt_Some _ _ _ Hv) as Hvlt.
      assert (length (nx.nodes G) = length G) as Hlen by apply length_fmap.
      rewrite Hlen in Hult, Hvlt.
      destruct (adjacency_matrix_square G) as [-> _]. split; [lia|]. split; [lia|].
      exists u, v. by rewrite !Nat2Z.id.
Qed.

Lemma out_deg_fmap (f : Z * Z → Z * Z) R x :
  out_deg (f <$> R) x = length (filter (λ p, (f p).1 = x) R).
Proof.
  unfold out_deg. induction R as [|p R IH]; [done|]. csimpl.
  rewrite !filter_cons. case_decide; simpl; by rewrite IH.
Qed.

Lemma filter_ext_elem {A} (P Q : A → Prop) `{∀ x, Decision (P x)}
    `{∀ x, Decision (Q x)} (l : list A) :
  (∀ x, x ∈ l → P x ↔ Q x) → filter P l = filter Q l.
Proof.
  induction l as [|x l IH]; [done|]. intros Hext.
  rewrite !filter_cons, IH by (intros y Hy; apply Hext; by right).
  destruct (decide (P x)) as [HP|HP].
  - rewrite decide_True; [done|]. apply Hext; [by left | done].
  - rewrite decide_False; [done|]. intros HQ. apply HP, Hext; [by left | done].
Qed.

Lemma filter_none {A} (P : A → Prop) `{∀ x, Decision (P x)} (l : list A) :
  (∀ x, x ∈ l → ¬ P x) → filter P l = [].
Proof.
  induction l as [|x l IH]; [done|]. intros Hno.
  rewrite filter_cons, decide_False by (apply Hno; by left).
  apply IH. intros y Hy. apply Hno. by right.
Qed.

(** Rows of the matrix have as many ones as the node has neighbours. *)
Lemma matrix_edges_even G :
  wf_graph G → all_even G →
  ∀ x, Nat.odd (out_deg (matrix_edges (nx.adjacency_matrix G)) x) = false.
Proof.
  intros Hwf Heven x. rewrite (out_deg_perm _ _ x (matrix_edges_relabel G Hwf)).
  rewrite out_deg_fmap. simpl.
  destruct (decide (x ∈ (λ u, Z.of_nat (index_of (nx.nodes G) u)) <$> nx.nodes G))
    as [(u & -> & Hu)%list_elem_of_fmap|Hno].
  - rewrite (filter_ext_elem _ (λ p, p.1 = u)).
    + apply (eulerian_even G Hwf Heven u).
    + intros [a b] Ha%dir_edges_node. simpl. split; [|by intros ->].
      intros Heq%Nat2Z.inj. apply index_of_lookup in Ha, Hu.
      rewrite Heq in Ha. congruence.
  - rewrite filter_none; [done|].
    intros [a b] Ha%dir_edges_node Heq. simpl in Heq.
    apply Hno, list_elem_of_fmap. eauto.
Qed.

Lemma hinv_perm E start a top s c R R' :
  R ≡ₚ R' → hinv E start a top s c R → hinv E start a top s c R'.
Proof.
  intros HP [HE Hb Hf Hp Hd]. split; try done.
  - by rewrite <-HP.
  - intros x. by rewrite <-(out_deg_perm _ _ x HP).
  - intros x y Hx. rewrite <-HP. by apply Hd.
Qed.

Lemma canonical_relabel G :
  wf_graph G → canonical_nodes G → relabel G <$> dir_edges G = dir_edges G.
Proof.
  intros Hwf Hcan. rewrite <-(list_fmap_id (dir_edges G)) at 2.
  apply list_fmap_ext. intros _ [u v] Huv%list_elem_of_lookup_2.
  assert (∀ x y, (x, y) ∈ dir_edges G →
            Z.of_nat (index_of (nx.nodes G) x) = x) as Hidx.
  { intros x y Hx%dir_edges_node. rewrite Hcan in *.
    apply elem_of_seqZ in Hx.
    rewrite (lookup_index_of _ (Z.to_nat x) x); [lia | apply NoDup_seqZ |].
    apply lookup_seqZ. lia. }
  unfold relabel. simpl. rewrite (Hidx u v Huv).
  by rewrite (Hidx v u (dir_edges_sym G Hwf u v Huv)).
Qed.

Lemma matrix_fuel G fuel :
  wf_graph G → (circuit_fuel G ≤ fuel)%nat →
  (length (matrix_edges (nx.adjacency_matrix G)) + length [0] < fuel)%nat.
Proof.
  intros Hwf Hfuel. rewrite (matrix_edges_relabel G Hwf), length_fmap.
  unfold circuit_fuel in Hfuel. simpl. lia.
Qed.

Lemma eulerian_zero_index G :
  nx.is_eulerian G = Return true →
  Forall (λ x, 0 ≤ x < Z.of_nat (length G)) [0].
Proof.
  intros Heul. apply Forall_singleton. destruct G; [done|]. simpl. lia.
Qed.

Lemma reach_matrix G u v :
  wf_graph G → reach G u v →
  rtc (λ a b, (a, b) ∈ matrix_edges (nx.adjacency_matrix G))
      (Z.of_nat (index_of (nx.nodes G) u)) (Z.of_nat (index_of (nx.nodes G) v)).
Proof.
  intros Hwf. apply (rtc_congruence (λ x, Z.of_nat (index_of (nx.nodes G) x))).
  intros x y Hxy. rewrite (matrix_edges_relabel G Hwf).
  apply (list_elem_of_fmap_2 (relabel G) _ (x, y)), Hxy.
Qed.

(** On every graph that passes the test variant 2 returns a closed sequence
    of matrix indices, in which every index occurs. *)
Lemma Eulerian_circuit_2_returns G fuel :
  wf_graph G → nx.is_eulerian G = Return true → (circuit_fuel G ≤ fuel)%nat →
  ∃ C, Eulerian_circuit_2 fuel G = (Return (Some C), G) ∧
       head C = Some 0 ∧ last C = Some 0 ∧
       Forall (λ x, 0 ≤ x < Z.of_nat (length G)) C ∧
       ∀ i, (i < length G)%nat → Z.of_nat i ∈ C.
Proof.
  intros Hwf Heul Hfuel. unfold Eulerian_circuit_2. rewrite Heul.
  pose proof (eulerian_zero_index G Heul) as Hzero.
  apply is_eulerian_true in Heul as (Hne & Heven & Hconn); [|done].
  destruct (loop_2_correct (matrix_edges (nx.adjacency_matrix G)) 0 (length G)
              fuel (nx.adjacency_matrix G) 0 0 [] [])
    as (C & R & -> & HF & Hrange).
  - by apply adjacency_matrix_simple.
  - by apply hinv_init, matrix_edges_even.
  - done.
  - done.
  - by apply matrix_fuel.
  - exists C. split_and!; [done | apply HF | apply HF | done |].
    intros i Hi. pose proof (wf_nodes_NoDup G Hwf) as Hnd.
    destruct (lookup_lt_is_Some_2 (nx.nodes G) i) as [u Hu].
    { unfold nx.nodes. by rewrite length_fmap. }
    destruct G as [|[source ns] G'] eqn:HG; [done|]. rewrite <-HG in *.
    assert (nx.nodes G !! 0%nat = Some source) as Hsrc by (by rewrite HG).
    eapply hfinal_reachable; [exact HF|].
    rewrite <-(lookup_index_of _ _ _ Hnd Hu).
    replace 0 with (Z.of_nat (index_of (nx.nodes G) source))
      by (by rewrite (lookup_index_of _ _ _ Hnd Hsrc)).
    apply reach_matrix; [done|].
    apply Hconn; by eapply list_elem_of_lookup_2.
Qed.

Lemma Eulerian_circuit_2_correct G fuel :
  wf_graph G → nx.is_eulerian G = Return true → canonical_nodes G →
  (circuit_fuel G ≤ fuel)%nat →
  ∃ C, Eulerian_circuit_2 fuel G = (Return (Some C), G) ∧
       eulerian_circuit_of G C ∧ head C = Some 0 ∧ last C = Some 0.
Proof.
  intros Hwf Heul Hcan Hfuel. unfold Eulerian_circuit_2. rewrite Heul.
  pose proof (eulerian_zero_index G Heul) as Hzero.
  apply is_eulerian_true in Heul as (_ & Heven & Hconn); [|done].
  assert (matrix_edges (nx.adjacency_matrix G) ≡ₚ dir_edges G) as HP.
  { by rewrite matrix_edges_relabel, canonical_relabel. }
  assert (0 ∈ nx.nodes G) as H0.
  { rewrite Hcan. apply elem_of_seqZ. rewrite Forall_singleton in Hzero. lia. }
  destruct (loop_2_correct (dir_edges G) 0 (length G)
              fuel (nx.adjacency_matrix G) 0 0 [] [])
    as (C & R & -> & HF & Hrange).
  - by apply adjacency_matrix_simple.
  - eapply hinv_perm; [symmetry; exact HP|]. by apply hinv_init, eulerian_even.
  - done.
  - done.
  - by apply matrix_fuel.
  - exists C. split; [done|].
    pose proof (hfinal_all_consumed _ _ (eulerian_connected G 0 Hwf Hconn H0) C R HF) as ->.
    split; [by eapply hfinal_eulerian_circuit|]. split; apply HF.
Qed.

(** ** Termination on arbitrary input

    No assumption on the graph here: every iteration of a loop either pushes
    and takes at least one pair out of the tracker, or pops. *)

Lemma filter_length_lt {A} (P Q : A → Prop) `{∀ x, Decision (P x)}
    `{∀ x, Decision (Q x)} (l : list A) x0 :
  (∀ x, Q x → P x) → x0 ∈ l → P x0 → ¬ Q x0 →
  (length (filter Q l) < length (filter P l))%nat.
Proof.
  intros HQP Hin HP HQ.
  assert (∀ k : list A, length (filter Q k) ≤ length (filter P k))%nat as Hle.
  { induction k as [|y k IH]; [done|]. rewrite !filter_cons.
    destruct (decide (Q y)) as [Hy|Hy].
    - rewrite decide_True by auto. simpl. lia.
    - case_decide; simpl; lia. }
  induction l as [|y l IH]; [by apply elem_of_nil in Hin|].
  rewrite !filter_cons. apply elem_of_cons in Hin as [<-|Hin].
  - rewrite decide_False, decide_True by done. specialize (Hle l). simpl. lia.
  - specialize (IH Hin). destruct (decide (Q y)) as [Hy|Hy].
    + rewrite decide_True by auto. simpl. lia.
    + case_decide; simpl; lia.
Qed.

Lemma set_adj_length G u nbrs nbrs' :
  nx.adj G u = Some nbrs →
  (length (dir_edges (nx.set_adj G u nbrs')) + length nbrs
   = length (dir_edges G) + length nbrs')%nat.
Proof.
  rewrite !length_dir_edges. induction G as [|[x ns] G IH]; csimpl; [done|].
  case_decide.
  - intros [= ->]. csimpl. lia.
  - intros Hadj. csimpl. specialize (IH Hadj). lia.
Qed.

Lemma del_nbr_length G u v G' :
  nx.del_nbr G u v = Some G' →
  (length (dir_edges G') < length (dir_edges G))%nat.
Proof.
  unfold nx.del_nbr. destruct (nx.adj G u) as [nbrs|] eqn:Hadj; [|done].
  case_decide as Hv; [|done]. intros [= <-].
  pose proof (set_adj_length G u nbrs (filter (λ w, w ≠ v) nbrs) Hadj) as Hlen.
  assert (length (filter (λ w, w ≠ v) nbrs) < length nbrs)%nat; [|lia].
  rewrite <-(filter_all (λ _, True) nbrs) at 2 by done.
  apply (filter_length_lt (λ _, True) (λ w, w ≠ v) nbrs v); [done..|].
  intros Hne. by apply Hne.
Qed.

Lemma remove_edge_length G u v G' :
  nx.remove_edge G u v = (Return (), G') →
  (length (dir_edges G') < length (dir_edges G))%nat.
Proof.
  unfold nx.remove_edge. destruct (nx.del_nbr G u v) as [G1|] eqn:H1; [|done].
  apply del_nbr_length in H1. case_decide; [by intros [= <-]|].
  destruct (nx.del_nbr G1 v u) as [G2|] eqn:H2; [|done].
  apply del_nbr_length in H2. intros [= <-]. lia.
Qed.

Lemma loop_1_terminates fuel G stack circuit :
  (2 * length (dir_edges G) + length stack < fuel)%nat →
  (loop_1 fuel G stack circuit).1 ≠ OutOfFuel.
Proof.
  revert G stack circuit.
  induction fuel as [|fuel IH]; intros G stack circuit Hfuel; [lia|].
  simpl. destruct stack as [|top s]; [done|].
  destruct (nx.edges_at G top) as [F|]; [|done].
  destruct (last F) as [e|].
  - destruct (nx.remove_edge G e.1 e.2) as [[[]| |] G'] eqn:Hrm; [|done|].
    + apply remove_edge_length in Hrm. apply IH. simpl in *. lia.
    + unfold nx.remove_edge in Hrm. repeat case_match; simplify_eq.
  - apply IH. simpl in *. lia.
Qed.

Lemma loop_3_terminates fuel G stack seen circuit :
  (2 * length (unseen G seen) + length stack < fuel)%nat →
  loop_3 fuel G stack seen circuit ≠ OutOfFuel.
Proof.
  revert stack seen circuit.
  induction fuel as [|fuel IH]; intros stack seen circuit Hfuel; [lia|].
  simpl. destruct stack as [|top s]; [done|].
  destruct (nx.adj G top) as [nbrs|] eqn:Hadj; [|done].
  destruct (filter _ nbrs) as [|w ws] eqn:HT; csimpl.
  - apply IH. simpl in *. lia.
  - assert (w ∈ filter (λ neighbour, ({[top; neighbour]} : gset Z) ∉ seen) nbrs) as Hw
      by (rewrite HT; by left).
    apply list_elem_of_filter in Hw as [Hns Hw].
    assert (length (unseen G (seen ++ [{[top; w]}])) < length (unseen G seen))%nat.
    { unfold unseen. apply (filter_length_lt _ _ _ (top, w)).
      - intros p Hp Hin. apply Hp. apply elem_of_app. by left.
      - apply elem_of_dir_edges. eauto using adj_Some_elem.
      - done.
      - intros Hn. apply Hn. apply elem_of_app. right. by left. }
    apply IH. simpl in *. lia.
Qed.

Lemma loop_2_terminates n fuel F stack circuit :
  square n F → Forall (λ x, 0 ≤ x < Z.of_nat n) stack →
  (2 * length (matrix_edges F) + length stack < fuel)%nat →
  loop_2 fuel F stack circuit ≠ OutOfFuel.
Proof.
  revert F stack circuit.
  induction fuel as [|fuel IH]; intros F stack circuit Hsq Hst Hfuel; [lia|].
  simpl. destruct stack as [|top s]; [done|].
  pose proof Hst as [Htop Hs]%Forall_cons. pose proof Hsq as [HlenF _].
  rewrite getitem_in_range by lia.
  destruct (F !! Z.to_nat top) as [row|] eqn:Hrow; [|done].
  pose proof (square_row n F _ row Hsq Hrow) as Hlen.
  destruct (np.any row).
  - unfold np.nonzero. destruct (np.nonzero_from 0 row) as [|edge rest] eqn:Hnz; [done|].
    apply nonzero_from_head in Hnz as (k & v & -> & Hk & Hv).
    pose proof (lookup_lt_Some _ _ _ Hk) as Hklt.
    destruct (matrix_clear_entries n F top (0 + Z.of_nat k) Hsq)
      as (F1 & F2 & -> & -> & Hsq2 & Hentry); [lia | lia |].
    assert (length (matrix_edges F2) < length (matrix_edges F))%nat.
    { unfold matrix_edges. destruct Hsq2 as [-> _]. rewrite HlenF.
      apply (filter_length_lt _ _ _ (top, 0 + Z.of_nat k)).
      - intros [x y]. simpl. rewrite Hentry. by case_decide.
      - apply elem_of_all_pairs. lia.
      - simpl. unfold entry. rewrite Hrow. csimpl.
        replace (Z.to_nat (0 + Z.of_nat k)) with k by lia. by rewrite Hk.
      - simpl. rewrite Hentry, decide_True; [|by left]. by intros Hne. }
    apply IH; [done | | simpl in *; lia].
    apply Forall_cons. split; [lia | done].
  - apply IH; [done | done | simpl in *; lia].
Qed.

(** ** More fuel changes nothing once a run has ended *)

Lemma loop_1_fuel_mono fuel k G stack circuit :
  (loop_1 fuel G stack circuit).1 ≠ OutOfFuel →
  loop_1 (fuel + k) G stack circuit = loop_1 fuel G stack circuit.
Proof.
  revert G stack circuit.
  induction fuel as [|fuel IH]; intros G stack circuit; [done|].
  simpl. destruct stack as [|top s]; [done|].
  destruct (nx.edges_at G top) as [F|]; [|done].
  destruct (last F) as [e|]; [|apply IH].
  destruct (nx.remove_edge G e.1 e.2) as [[[]| |] G']; [apply IH|done..].
Qed.

Lemma loop_2_fuel_mono fuel k F stack circuit :
  loop_2 fuel F stack circuit ≠ OutOfFuel →
  loop_2 (fuel + k) F stack circuit = loop_2 fuel F stack circuit.
Proof.
  revert F stack circuit.
  induction fuel as [|fuel IH]; intros F stack circuit; [done|].
  simpl. destruct stack as [|top s]; [done|].
  destruct (np.getitem F top) as [row|]; [|done].
  destruct (np.any row); [|apply IH].
  destruct (np.nonzero row) as [|edge rest]; [done|].
  destruct (np.setitem2 F top edge 0) as [F1|]; [|done].
  destruct (np.setitem2 F1 edge top 0) as [F2|]; [apply IH | done].
Qed.

Lemma loop_3_fuel_mono fuel k G stack seen circuit :
  loop_3 fuel G stack seen circuit ≠ OutOfFuel →
  loop_3 (fuel + k) G stack seen circuit = loop_3 fuel G stack seen circuit.
Proof.
  revert stack seen circuit.
  induction fuel as [|fuel IH]; intros stack seen circuit; [done|].
  simpl. destruct stack as [|top s]; [done|].
  destruct (nx.adj G top) as [nbrs|]; [|done].
  destruct (filter _ nbrs) as [|w ws]; csimpl; apply IH.
Qed.

Lemma Eulerian_circuit_1_terminates G k :
  (Eulerian_circuit_1 (any_fuel G + k) G).1 ≠ OutOfFuel.
Proof.
  unfold Eulerian_circuit_1. pose proof (is_eulerian_terminates G) as Hterm.
  destruct (nx.is_eulerian G) as [[]| |]; try done.
  apply loop_1_terminates. unfold any_fuel. simpl. lia.
Qed.

Lemma Eulerian_circuit_2_terminates G k :
  (Eulerian_circuit_2 (any_fuel G + k) G).1 ≠ OutOfFuel.
Proof.
  unfold Eulerian_circuit_2. pose proof (is_eulerian_terminates G) as Hterm.
  destruct (nx.is_eulerian G) as [[]| |] eqn:Heul; try done. simpl.
  eapply loop_2_terminates.
  - apply adjacency_matrix_square.
  - by apply eulerian_zero_index.
  - pose proof (length_filter (λ p, entry (nx.adjacency_matrix G) (Z.to_nat p.1)
                                     (Z.to_nat p.2) ≠ 0)
                  (all_pairs (length (nx.adjacency_matrix G)))) as Hle.
    fold (matrix_edges (nx.adjacency_matrix G)) in Hle.
    destruct (adjacency_matrix_square G) as [Hlen _]. rewrite Hlen in Hle.
    unfold any_fuel. simpl. lia.
Qed.

Lemma Eulerian_circuit_3_terminates G k :
  (Eulerian_circuit_3 (any_fuel G + k) G).1 ≠ OutOfFuel.
Proof.
  unfold Eulerian_circuit_3. pose proof (is_eulerian_terminates G) as Hterm.
  destruct (nx.is_eulerian G) as [[]| |]; try done. simpl.
  apply loop_3_terminates.
  pose proof (length_filter (λ p, ({[p.1; p.2]} : gset Z) ∉ [])
                (dir_edges G)) as Hle.
  fold (unseen G []) in Hle. unfold any_fuel. simpl. lia.
Qed.

(** ** The connectivity check on positive-degree vertices *)

Lemma elem_of_pos_deg G v :
  NoDup (nx.nodes G) →
  v ∈ pos_deg G ↔ ∃ w, (v, w) ∈ dir_edges G.
Proof.
  intros Hnd. unfold pos_deg. rewrite list_elem_of_filter. split.
  - intros [Hlen Hv]. apply adj_is_Some in Hv as [nbrs Hadj].
    rewrite Hadj in Hlen. simpl in Hlen. destruct nbrs as [|w nbrs]; [simpl in Hlen; lia|].
    exists w. apply dir_edges_adj; [done|]. exists (w :: nbrs). split; [done | by left].
  - intros [w Hvw]. split; [|by eapply dir_edges_node].
    apply dir_edges_adj in Hvw as (nbrs & -> & Hw); [|done]. simpl.
    destruct nbrs; [by apply elem_of_nil in Hw | simpl; lia].
Qed.

Lemma pos_deg_NoDup G : NoDup (nx.nodes G) → NoDup (pos_deg G).
Proof. intros Hnd. by apply NoDup_filter. Qed.

Lemma pos_deg_nil G : Forall (λ p, p.2 = []) G → pos_deg G = [].
Proof.
  intros Hall. unfold pos_deg. apply filter_none. intros v Hv.
  apply adj_is_Some in Hv as [nbrs Hadj]. rewrite Hadj. simpl.
  apply adj_Some_elem in Hadj. rewrite Forall_forall in Hall.
  apply Hall in Hadj. simpl in Hadj. subst. simpl. lia.
Qed.

Lemma reach_pos_deg G u v :
  wf_graph G → u ∈ pos_deg G → reach G u v → v ∈ pos_deg G.
Proof.
  intros Hwf Hu Huv. pose proof (wf_nodes_NoDup G Hwf) as Hnd.
  induction Huv as [|x y z Hxy _ IH]; [done|]. apply IH.
  apply elem_of_pos_deg; [done|]. exists x. by apply dir_edges_sym.
Qed.

Lemma connectivity_check_spec G fuel u rest :
  wf_graph G → pos_deg G = u :: rest → (nx.bfs_fuel G ≤ fuel)%nat →
  ∃ seen,
    bfs_loop fuel G [u] ∅ = Return seen ∧
    all_positive_degree_vertices_connected fuel G
      = Return (bool_decide (size seen = length (pos_deg G))) ∧
    (∀ v, v ∈ seen ↔ reach G u v) ∧
    (∀ v, v ∈ seen → v ∈ pos_deg G) ∧
    (size seen = length (pos_deg G) ↔ pos_deg_connected G).
Proof.
  intros Hwf Hpos Hfuel. pose proof (wf_nodes_NoDup G Hwf) as Hnd.
  assert (u ∈ pos_deg G) as Hu by (rewrite Hpos; by left).
  assert (u ∈ nx.nodes G) as Hnode.
  { unfold pos_deg in Hu. by apply list_elem_of_filter in Hu as [_ ?]. }
  destruct (bfs_from_root G u fuel Hwf Hnode Hfuel) as (seen & Hbfs & Hseen).
  assert (∀ v, v ∈ seen → v ∈ pos_deg G) as Hsub.
  { intros v Hv. eapply reach_pos_deg; [done..|]. by apply Hseen. }
  exists seen. split_and!; try done.
  - unfold all_positive_degree_vertices_connected. by rewrite Hpos, Hbfs.
  - rewrite size_eq_length_iff; [|by apply pos_deg_NoDup|done]. split.
    + intros Hall v w Hv Hw. etrans.
      * apply reach_sym; [done|]. by apply Hseen, Hall.
      * by apply Hseen, Hall.
    + intros Hconn v Hv. apply Hseen. by apply Hconn.
Qed.

(** ** Graphs built by NetworkX are well formed *)

Lemma wf_graph_adj G :
  wf_graph G ↔
  NoDup (nx.nodes G) ∧
  ∀ u nbrs, nx.adj G u = Some nbrs →
    NoDup nbrs ∧ (u ∉ nbrs) ∧
    ∀ v, v ∈ nbrs → ∃ ms, nx.adj G v = Some ms ∧ u ∈ ms.
Proof.
  split.
  - intros Hwf. split; [apply Hwf|]. intros u nbrs Hadj%adj_Some_elem.
    destruct (wf_entry G Hwf u nbrs Hadj) as (Hnd & Hu & Hsym).
    split; [done|]. split; [done|]. intros v Hv%Hsym.
    apply dir_edges_adj in Hv; [done | apply Hwf].
  - intros [Hnd Hall]. split; [done|]. apply Forall_forall.
    intros [u nbrs] Hin%elem_adj_Some; [|done]. simpl.
    destruct (Hall u nbrs Hin) as (Hnbrs & Hu & Hsym).
    split; [done|]. split; [done|]. apply Forall_forall. intros v Hv%Hsym.
    by apply dir_edges_adj.
Qed.

Lemma adj_set_adj G n nbrs' x :
  nx.adj (nx.set_adj G n nbrs') x
  = if decide (x = n) then (λ _, nbrs') <$> nx.adj G n else nx.adj G x.
Proof.
  induction G as [|[u ns] G IH]; simpl; [by case_decide|].
  destruct (decide (u = n)) as [->|Hun]; simpl.
  - destruct (decide (n = x)) as [->|Hnx].
    + by rewrite decide_True.
    + by rewrite decide_False by done.
  - destruct (decide (u = x)) as [->|Hux].
    + by rewrite decide_False by done.
    + rewrite IH. by case_decide.
Qed.

Lemma adj_add_node G n x :
  nx.adj (nx.add_node G n) x
  = if decide (x = n) then Some (default [] (nx.adj G n)) else nx.adj G x.
Proof.
  unfold nx.add_node. destruct (nx.adj G n) as [ns|] eqn:Hn.
  - case_decide; by subst.
  - induction G as [|[u ns] G IH]; simpl in *.
    + repeat case_decide; by subst.
    + destruct (decide (u = n)); [done|]. specialize (IH Hn).
      destruct (decide (u = x)) as [->|]; [by rewrite decide_False|done].
Qed.

Lemma nodes_add_node G n :
  NoDup (nx.nodes G) → NoDup (nx.nodes (nx.add_node G n)).
Proof.
  intros Hnd. unfold nx.add_node. destruct (nx.adj G n) eqn:Hn; [done|].
  unfold nx.nodes. rewrite fmap_app. apply NoDup_app. split; [done|]. split.
  - intros x Hx [->|[]%elem_of_nil]%elem_of_cons. by apply adj_None in Hn.
  - apply NoDup_singleton.
Qed.

Lemma adj_add_nbr G u v x :
  nx.adj (nx.add_nbr G u v) x
  = if decide (x = u)
    then (λ nbrs, if decide (v ∈ nbrs) then nbrs else nbrs ++ [v]) <$> nx.adj G u
    else nx.adj G x.
Proof.
  unfold nx.add_nbr. destruct (nx.adj G u) as [nbrs|] eqn:Hu.
  - destruct (decide (v ∈ nbrs)) as [Hv|Hv].
    + case_decide; [subst|done]. rewrite Hu. simpl. by rewrite decide_True.
    + rewrite adj_set_adj, Hu. simpl. by rewrite (decide_False (P:=v ∈ nbrs)).
  - case_decide; by subst.
Qed.

Lemma nodes_add_nbr G u v : nx.nodes (nx.add_nbr G u v) = nx.nodes G.
Proof.
  unfold nx.add_nbr. repeat case_match; try done. apply set_adj_nodes.
Qed.

Lemma elem_of_with_nbr l v x : x ∈ with_nbr l v ↔ x ∈ l ∨ x = v.
Proof.
  unfold with_nbr. case_decide.
  - split; [auto|]. by intros [? | ->].
  - rewrite elem_of_app, list_elem_of_singleton. done.
Qed.

Lemma with_nbr_NoDup l v : NoDup l → NoDup (with_nbr l v).
Proof.
  unfold with_nbr. case_decide; [done|]. intros Hnd.
  apply NoDup_app. split; [done|]. split; [|apply NoDup_singleton].
  by intros x Hx ->%list_elem_of_singleton.
Qed.

Lemma adj_add_edge G u v x :
  u ≠ v →
  nx.adj (nx.add_edge G u v) x
  = if decide (x = u) then Some (with_nbr (default [] (nx.adj G u)) v)
    else if decide (x = v) then Some (with_nbr (default [] (nx.adj G v)) u)
    else nx.adj G x.
Proof.
  intros Hne. unfold nx.add_edge.
  rewrite !adj_add_nbr, !adj_add_node. unfold with_nbr.
  destruct (decide (x = v)) as [->|Hxv]; [|destruct (decide (x = u)) as [->|Hxu]];
    repeat first [rewrite decide_True by congruence
                 |rewrite decide_False by congruence]; done.
Qed.

Lemma add_edge_wf G u v : u ≠ v → wf_graph G → wf_graph (nx.add_edge G u v).
Proof.
  intros Hne [Hnd Hall]%wf_graph_adj. apply wf_graph_adj. split.
  { unfold nx.add_edge. rewrite !nodes_add_nbr. by do 2 apply nodes_add_node. }
  assert (∀ n, NoDup (default [] (nx.adj G n)) ∧ (n ∉ default [] (nx.adj G n))) as Hdef.
  { intros n. destruct (nx.adj G n) as [ns|] eqn:Hn; simpl.
    - by destruct (Hall n ns Hn) as (? & ? & _).
    - split; [constructor | apply not_elem_of_nil]. }
  intros x nbrs. rewrite adj_add_edge by done.
  destruct (decide (x = u)) as [->|Hxu]; [|destruct (decide (x = v)) as [->|Hxv]].
  - intros [= <-]. destruct (Hdef u) as [Hn Hu]. split; [by apply with_nbr_NoDup|].
    split. { rewrite elem_of_with_nbr. intros [?|?]; done. }
    intros w [Hw | ->]%elem_of_with_nbr; rewrite adj_add_edge by done.
    + destruct (nx.adj G u) as [ns|] eqn:Hadj; [|by apply elem_of_nil in Hw].
      simpl in Hw. destruct (Hall u ns Hadj) as (_ & _ & Hsym).
      destruct (Hsym w Hw) as (ms & Hms & Hums).
      rewrite decide_False by (by intros ->).
      case_decide; [subst|eauto]. eexists. split; [done|].
      apply elem_of_with_nbr. by right.
    + rewrite decide_False, decide_True by done. eexists. split; [done|].
      apply elem_of_with_nbr. by right.
  - intros [= <-]. destruct (Hdef v) as [Hn Hv]. split; [by apply with_nbr_NoDup|].
    split. { rewrite elem_of_with_nbr. intros [?|?]; done. }
    intros w [Hw | ->]%elem_of_with_nbr; rewrite adj_add_edge by done.
    + destruct (nx.adj G v) as [ns|] eqn:Hadj; [|by apply elem_of_nil in Hw].
      simpl in Hw. destruct (Hall v ns Hadj) as (_ & _ & Hsym).
      destruct (Hsym w Hw) as (ms & Hms & Hvms).
      case_decide; [subst|].
      { eexists. split; [done|]. apply elem_of_with_nbr. by right. }
      rewrite decide_False by (by intros ->). eauto.
    + rewrite decide_True by done. eexists. split; [done|].
      apply elem_of_with_nbr. by right.
  - intros Hadj. destruct (Hall x nbrs Hadj) as (Hn & Hx & Hsym).
    split; [done|]. split; [done|]. intros w Hw.
    destruct (Hsym w Hw) as (ms & Hms & Hxms). rewrite adj_add_edge by done.
    repeat case_decide; subst; rewrite ?Hms; simpl; eexists; (split; [done|]);
      try done; apply elem_of_with_nbr; by left.
Qed.

Lemma from_edges_wf ebunch :
  Forall (λ e, e.1 ≠ e.2) ebunch → wf_graph (nx.from_edges ebunch).
Proof.
  unfold nx.from_edges. intros Hall.
  assert (wf_graph []) as Hnil.
  { split; [constructor | constructor]. }
  revert Hnil. generalize ([] : Graph).
  induction Hall as [|e ebunch He Hall IH]; intros G HG; [done|].
  simpl. apply IH. by apply add_edge_wf.
Qed.

(** ** Variant 2 on arbitrary labels *)

Lemma walk_pairs_fmap (f : Z → Z) l :
  walk_pairs (f <$> l) = prod_map f f <$> walk_pairs l.
Proof.
  induction l as [|x l IH]; [done|].
  destruct l as [|y l]; [done|].
  change (walk_pairs (f <$> x :: y :: l))
    with ((f x, f y) :: (f y, f x) :: walk_pairs (f <$> y :: l)).
  by rewrite IH.
Qed.

Lemma node_at_index_of G u :
  u ∈ nx.nodes G → node_at G (Z.of_nat (index_of (nx.nodes G) u)) = u.
Proof.
  intros Hu. unfold node_at. by rewrite Nat2Z.id, (index_of_lookup _ _ Hu).
Qed.

Lemma node_at_relabel G :
  wf_graph G →
  prod_map (node_at G) (node_at G) <$> (relabel G <$> dir_edges G) = dir_edges G.
Proof.
  intros Hwf. rewrite <-list_fmap_compose.
  rewrite <-(list_fmap_id (dir_edges G)) at 2.
  apply list_fmap_ext. intros _ [u v] Huv%list_elem_of_lookup_2.
  unfold relabel. simpl.
  rewrite !node_at_index_of; [done| |].
  - eapply dir_edges_node, dir_edges_sym; [done | exact Huv].
  - by eapply dir_edges_node.
Qed.

Lemma matrix_connected G source :
  wf_graph G → connected G → head (nx.nodes G) = Some source →
  ∀ x y, (x, y) ∈ matrix_edges (nx.adjacency_matrix G) →
    rtc (λ a b, (a, b) ∈ matrix_edges (nx.adjacency_matrix G)) 0 x.
Proof.
  intros Hwf Hconn Hsrc x y Hxy.
  rewrite (matrix_edges_relabel G Hwf) in Hxy.
  apply list_elem_of_fmap in Hxy as ([u v] & [= -> ->] & Huv).
  assert (source ∈ nx.nodes G) as Hin.
  { destruct (nx.nodes G); simplify_eq/=. by left. }
  replace 0 with (Z.of_nat (index_of (nx.nodes G) source)).
  - apply reach_matrix; [done|]. apply Hconn; [done | by eapply dir_edges_node].
  - destruct (nx.nodes G); simplify_eq/=. by rewrite decide_True.
Qed.

(** The indices that variant 2 returns, read through the node list, form an
    Eulerian circuit of the graph that starts and ends at its first node. *)
Lemma Eulerian_circuit_2_labels G fuel :
  wf_graph G → nx.is_eulerian G = Return true → (circuit_fuel G ≤ fuel)%nat →
  ∃ C, Eulerian_circuit_2 fuel G = (Return (Some C), G) ∧
       Forall (λ x, 0 ≤ x < Z.of_nat (length G)) C ∧
       eulerian_circuit_of G (node_at G <$> C) ∧
       head (node_at G <$> C) = head (nx.nodes G) ∧
       last (node_at G <$> C) = head (nx.nodes G).
Proof.
  intros Hwf Heul Hfuel. unfold Eulerian_circuit_2. rewrite Heul.
  pose proof (eulerian_zero_index G Heul) as Hzero.
  apply is_eulerian_true in Heul as (Hne & Heven & Hconn); [|done].
  destruct (loop_2_correct (matrix_edges (nx.adjacency_matrix G)) 0 (length G)
              fuel (nx.adjacency_matrix G) 0 0 [] [])
    as (C & R & -> & HF & Hrange).
  - by apply adjacency_matrix_simple.
  - by apply hinv_init, matrix_edges_even.
  - done.
  - done.
  - by apply matrix_fuel.
  - exists C. split; [done|]. split; [done|].
    destruct (nx.nodes G) as [|source rest] eqn:Hnodes.
    { destruct G; simplify_eq/=. }
    assert (head (nx.nodes G) = Some source) as Hsrc by (by rewrite Hnodes).
    pose proof (hfinal_all_consumed _ _
                  (matrix_connected G source Hwf Hconn Hsrc) C R HF) as ->.
    destruct HF as [HE Hf Hl _]. simpl in HE.
    assert (node_at G 0 = source) as H0.
    { unfold node_at. by rewrite Hnodes. }
    assert (head (node_at G <$> C) = Some source) as Hf'.
    { destruct C as [|c0 C']; [done|]. simpl in Hf. injection Hf as ->.
      simpl. by rewrite H0. }
    assert (last (node_at G <$> C) = Some source) as Hl'.
    { by rewrite fmap_last, Hl; simpl; rewrite H0. }
    split; [|done].
    apply (hfinal_eulerian_circuit G source); [done|].
    split; [| done | done | intros ???; apply not_elem_of_nil].
    simpl. rewrite walk_pairs_fmap, <-HE, (matrix_edges_relabel G Hwf).
    by rewrite node_at_relabel.
Qed.

(** * Evaluation on concrete graphs *)

(** Settles a decidable statement about concrete data by evaluation. *)
Ltac by_evaluation := refine (bool_decide_eq_true_1 _ _); vm_compute; reflexivity.

Lemma G3_wf : wf_graph G3.
Proof. by_evaluation. Qed.

(** * The claims *)

(** C1, as the code has it: for every graph [G] that passes the Eulerian
    test, [Eulerian_circuit_1] and [Eulerian_circuit_3] return, when [G] has
    a node 0, a sequence [C] with [C[0] = C[len(C)-1]], of length
    [|E(G)| + 1], whose consecutive pairs are the edges of [G], each once in
    one direction or the other; [Eulerian_circuit_2] does so when the nodes
    of [G] are [0 .. |V|-1] in insertion order. *)
Theorem C1_builders_return_eulerian_circuit (G : Graph) (fuel : nat) :
  wf_graph G → nx.is_eulerian G = Return true → (circuit_fuel G ≤ fuel)%nat →
  (0 ∈ nx.nodes G →
     (∃ C, (Eulerian_circuit_1 fuel G).1 = Return (Some C) ∧
           eulerian_circuit_of G C) ∧
     (∃ C, (Eulerian_circuit_3 fuel G).1 = Return (Some C) ∧
           eulerian_circuit_of G C)) ∧
  (canonical_nodes G →
     ∃ C, (Eulerian_circuit_2 fuel G).1 = Return (Some C) ∧
          eulerian_circuit_of G C).
Proof.
  intros Hwf Heul Hfuel. split.
  - intros H0. split.
    + destruct (Eulerian_circuit_1_correct G fuel Hwf Heul H0 Hfuel)
        as (C & -> & HC & _). eauto.
    + destruct (Eulerian_circuit_3_correct G fuel Hwf Heul H0 Hfuel)
        as (C & -> & HC & _). eauto.
  - intros Hcan.
    destruct (Eulerian_circuit_2_correct G fuel Hwf Heul Hcan Hfuel)
      as (C & -> & HC & _). eauto.
Qed.

Lemma C1_witness :
  (∃ C, (Eulerian_circuit_1 (circuit_fuel G3) G3).1 = Return (Some C) ∧
        eulerian_circuit_of G3 C) ∧
  (∃ C, (Eulerian_circuit_3 (circuit_fuel G3) G3).1 = Return (Some C) ∧
        eulerian_circuit_of G3 C) ∧
  (∃ C, (Eulerian_circuit_2 (circuit_fuel G3) G3).1 = Return (Some C) ∧
        eulerian_circuit_of G3 C).
Proof.
  destruct (C1_builders_return_eulerian_circuit G3 (circuit_fuel G3))
    as [H13 H2].
  - by_evaluation.
  - vm_compute. reflexivity.
  - vm_compute. lia.
  - destruct H13 as [H1 H3]; [by_evaluation|].
    split; [exact H1|]. split; [exact H3|].
    apply H2. vm_compute. reflexivity.
Defined.

(** C1 as stated fails on the triangle on 1, 2, 3, which passes the
    Eulerian test: variants 1 and 3 raise, and variant 2 returns matrix
    indices that are no circuit of the graph. *)
Lemma C1_counterexample :
  wf_graph triangle_123 ∧
  nx.is_eulerian triangle_123 = Return true ∧
  (∀ fuel, (Eulerian_circuit_1 (S fuel) triangle_123).1 = Raise NetworkXError) ∧
  (∀ fuel, (Eulerian_circuit_3 (S fuel) triangle_123).1 = Raise KeyError) ∧
  (Eulerian_circuit_2 (circuit_fuel triangle_123) triangle_123).1
    = Return (Some [0; 2; 1; 0]) ∧
  ¬ eulerian_circuit_of triangle_123 [0; 2; 1; 0].
Proof.
  split_and!.
  - by_evaluation.
  - vm_compute. reflexivity.
  - intros fuel. reflexivity.
  - intros fuel. reflexivity.
  - vm_compute. reflexivity.
  - intros (_ & _ & Hpairs). specialize (Hpairs 0 2). vm_compute in Hpairs.
    discriminate.
Qed.

(** C2: on a simple graph with at least one edge, let [P] be the set of
    the vertices that have a neighbour.  The traversal of
    [all_positive_degree_vertices_connected] starts at a vertex of [P], the
    first one in the order of the graph, and visits exactly the vertices
    that can be reached from it, all of them in [P]; the function returns
    whether it visited as many vertices as [P] has, a vertex without
    neighbours being neither visited nor counted; and it returns [True]
    exactly when every two vertices of [P] are connected. *)
Theorem C2_connectivity_check (G : Graph) (fuel : nat) :
  wf_graph G → dir_edges G ≠ [] → (nx.bfs_fuel G ≤ fuel)%nat →
  ∃ (u : Z) (seen P : gset Z),
    (∀ v, v ∈ P ↔ ∃ w, (v, w) ∈ dir_edges G) ∧
    (∀ v, (v, []) ∈ G → (v ∉ P) ∧ (v ∉ seen)) ∧
    head (pos_deg G) = Some u ∧ u ∈ P ∧ length (pos_deg G) = size P ∧
    bfs_loop fuel G [u] ∅ = Return seen ∧
    (∀ v, v ∈ seen ↔ reach G u v) ∧
    (∀ v, v ∈ seen → v ∈ P) ∧
    all_positive_degree_vertices_connected fuel G
      = Return (bool_decide (size seen = size P)) ∧
    (all_positive_degree_vertices_connected fuel G = Return true
     ↔ ∀ v w, v ∈ P → w ∈ P → reach G v w).
Proof.
  intros Hwf Hne Hfuel. pose proof (wf_nodes_NoDup G Hwf) as Hnd.
  assert (∀ v, v ∈ pos_deg G ↔ ∃ w, (v, w) ∈ dir_edges G) as HP.
  { intros v. by apply elem_of_pos_deg. }
  destruct (pos_deg G) as [|u rest] eqn:Hpos.
  { destruct (dir_edges G) as [|[x y] E]; [done|].
    assert (x ∈ @nil Z) as Hx by (apply HP; exists y; by left).
    by apply elem_of_nil in Hx. }
  destruct (connectivity_check_spec G fuel u rest Hwf Hpos Hfuel)
    as (seen & Hbfs & Hret & Hseen & Hsub & Hiff).
  rewrite Hpos in Hret, Hsub, Hiff.
  assert (length (u :: rest) = size (list_to_set (u :: rest) : gset Z)) as Hsize.
  { symmetry. apply size_list_to_set. rewrite <-Hpos. by apply pos_deg_NoDup. }
  assert (∀ v, v ∈ (list_to_set (u :: rest) : gset Z)
               ↔ ∃ w, (v, w) ∈ dir_edges G) as HP'.
  { intros v. by rewrite elem_of_list_to_set, HP. }
  assert (size seen = size (list_to_set (u :: rest) : gset Z)
          ↔ ∀ v w, v ∈ (list_to_set (u :: rest) : gset Z) →
                   w ∈ (list_to_set (u :: rest) : gset Z) → reach G v w) as Hiff'.
  { rewrite <-Hsize, Hiff. unfold pos_deg_connected. rewrite Hpos.
    split; intros Hc v w Hv Hw; apply Hc.
    - by apply elem_of_list_to_set in Hv.
    - by apply elem_of_list_to_set in Hw.
    - by apply elem_of_list_to_set.
    - by apply elem_of_list_to_set. }
  exists u, seen, (list_to_set (u :: rest)). split_and!.
  - exact HP'.
  - intros v Hv.
    assert (v ∉ (list_to_set (u :: rest) : gset Z)) as Hno.
    { rewrite HP'. intros [w Hw].
      apply (dir_edges_adj G v w Hnd) in Hw as (nbrs & Hadj & Hin).
      rewrite (elem_adj_Some G v [] Hnd Hv) in Hadj.
      injection Hadj as <-. by apply elem_of_nil in Hin. }
    split; [done|]. intros Hin. apply Hno, elem_of_list_to_set. by apply Hsub.
  - done.
  - apply elem_of_list_to_set. by left.
  - done.
  - done.
  - done.
  - intros v Hv. apply elem_of_list_to_set. by apply Hsub.
  - by rewrite Hret, Hsize.
  - rewrite Hret, <-Hiff', <-Hsize. split.
    + intros [= Hb]. by apply bool_decide_eq_true in Hb.
    + intros Hsz. f_equal. by apply bool_decide_eq_true.
Qed.

Lemma C2_witness :
  ∃ (u : Z) (seen P : gset Z),
    (∀ v, v ∈ P ↔ ∃ w, (v, w) ∈ dir_edges G4) ∧
    (∀ v, (v, []) ∈ G4 → (v ∉ P) ∧ (v ∉ seen)) ∧
    head (pos_deg G4) = Some u ∧ u ∈ P ∧ length (pos_deg G4) = size P ∧
    bfs_loop (nx.bfs_fuel G4) G4 [u] ∅ = Return seen ∧
    (∀ v, v ∈ seen ↔ reach G4 u v) ∧
    (∀ v, v ∈ seen → v ∈ P) ∧
    all_positive_degree_vertices_connected (nx.bfs_fuel G4) G4
      = Return (bool_decide (size seen = size P)) ∧
    (all_positive_degree_vertices_connected (nx.bfs_fuel G4) G4 = Return true
     ↔ ∀ v w, v ∈ P → w ∈ P → reach G4 v w).
Proof.
  apply (C2_connectivity_check G4 (nx.bfs_fuel G4)).
  - by_evaluation.
  - vm_compute. discriminate.
  - lia.
Defined.

Lemma number_of_edges_isolated (l : list Z) :
  nx.number_of_edges ((λ n, (n, [])) <$> l) = 0%nat.
Proof.
  unfold nx.number_of_edges. rewrite <-list_fmap_compose.
  replace (sum_list _) with 0%nat; [done|].
  induction l as [|n l IH]; [done|]. csimpl. by rewrite <-IH.
Qed.

(** The graph of the second copy of the code, with the nodes 1 to 7,
    passes the Eulerian test and makes variants 1 and 3 raise. *)
Example source_graph_without_node_0 :
  wf_graph G1_bis ∧
  nx.is_eulerian G1_bis = Return true ∧
  (Eulerian_circuit_1 (circuit_fuel G1_bis) G1_bis).1 = Raise NetworkXError ∧
  (Eulerian_circuit_3 (circuit_fuel G1_bis) G1_bis).1 = Raise KeyError.
Proof. split_and!; [by_evaluation | vm_compute; reflexivity..]. Qed.

(** C3, as the code has it: on a graph that passes the test
    [nx.is_eulerian] and has a node 0, [Eulerian_circuit_1] leaves every
    node of the caller's graph without neighbours, so the graph has zero
    edges; when the graph does not pass the test, or 0 is no node of it,
    [Eulerian_circuit_1] leaves the graph as it was; the calls of
    [Eulerian_circuit_2] and [Eulerian_circuit_3] leave the graph as it
    was, on every graph. *)
Theorem C3_graph_after_the_call (G : Graph) (fuel : nat) :
  (wf_graph G → nx.is_eulerian G = Return true → 0 ∈ nx.nodes G →
   (circuit_fuel G ≤ fuel)%nat →
   (Eulerian_circuit_1 fuel G).2 = (λ n, (n, [])) <$> nx.nodes G ∧
   nx.number_of_edges (Eulerian_circuit_1 fuel G).2 = 0%nat) ∧
  (nx.is_eulerian G ≠ Return true ∨ 0 ∉ nx.nodes G →
   (Eulerian_circuit_1 fuel G).2 = G) ∧
  (Eulerian_circuit_2 fuel G).2 = G ∧
  (Eulerian_circuit_3 fuel G).2 = G.
Proof.
  split_and!.
  - intros Hwf Heul H0 Hfuel.
    destruct (Eulerian_circuit_1_correct G fuel Hwf Heul H0 Hfuel)
      as (C & -> & _). split; [done|]. apply number_of_edges_isolated.
  - intros Hor. unfold Eulerian_circuit_1.
    destruct (nx.is_eulerian G) as [[|]| |] eqn:Heul; try done.
    destruct Hor as [? | H0%adj_None]; [done|].
    destruct fuel as [|fuel]; [done|].
    simpl. unfold nx.edges_at. by rewrite H0.
  - unfold Eulerian_circuit_2. by repeat case_match.
  - unfold Eulerian_circuit_3. by repeat case_match.
Qed.

Lemma C3_witness :
  ((Eulerian_circuit_1 (circuit_fuel G3) G3).2 = (λ n, (n, [])) <$> nx.nodes G3 ∧
   nx.number_of_edges (Eulerian_circuit_1 (circuit_fuel G3) G3).2 = 0%nat) ∧
  (Eulerian_circuit_1 (circuit_fuel triangle_and_isolated) triangle_and_isolated).2
  = triangle_and_isolated.
Proof.
  split.
  - apply (C3_graph_after_the_call G3 (circuit_fuel G3)).
    + by_evaluation.
    + vm_compute. reflexivity.
    + by_evaluation.
    + lia.
  - destruct (C3_graph_after_the_call triangle_and_isolated
                (circuit_fuel triangle_and_isolated)) as (_ & Hkept & _).
    apply Hkept. left. vm_compute. discriminate.
Defined.

(** C3 as stated fails in two ways.  On the triangle on 1, 2, 3, which
    passes the test [nx.is_eulerian], the call of variant 1 raises and the
    graph keeps its three edges.  On the triangle on 0, 1, 2 beside the
    node 3 without neighbours, where every degree is even and the
    positive-degree vertices are connected, the test fails, variant 1
    returns [None] and the graph keeps its three edges. *)
Lemma C3_counterexample :
  (nx.is_eulerian triangle_123 = Return true ∧
   Eulerian_circuit_1 (circuit_fuel triangle_123) triangle_123
     = (Raise NetworkXError, triangle_123) ∧
   nx.number_of_edges triangle_123 = 3%nat) ∧
  (wf_graph triangle_and_isolated ∧
   0 ∈ nx.nodes triangle_and_isolated ∧
   forallb (λ p, Nat.even (nx.degree p.1 p.2)) triangle_and_isolated = true ∧
   all_positive_degree_vertices_connected
     (nx.bfs_fuel triangle_and_isolated) triangle_and_isolated = Return true ∧
   nx.is_eulerian triangle_and_isolated = Return false ∧
   Eulerian_circuit_1 (circuit_fuel triangle_and_isolated) triangle_and_isolated
     = (Return None, triangle_and_isolated) ∧
   nx.number_of_edges triangle_and_isolated = 3%nat).
Proof.
  split; split_and!; try by_evaluation; vm_compute; reflexivity.
Qed.

(** A graph with a node that is not connected with even degrees throughout
    fails the Eulerian test. *)
Lemma not_eulerian_test (G : Graph) :
  wf_graph G → G ≠ [] → ¬ (all_even G ∧ connected G) →
  nx.is_eulerian G = Return false.
Proof.
  intros Hwf Hne Hnot. destruct (is_eulerian_spec G Hwf Hne) as ([] & -> & Hb);
    [|done]. destruct Hnot. by apply Hb.
Qed.

(** C4: on a graph that fails the Eulerian test each builder returns
    [None], raising nothing, and the caller's graph is as it was. *)
Theorem C4_not_eulerian_returns_None (G : Graph) (fuel : nat) :
  nx.is_eulerian G = Return false →
  Eulerian_circuit_1 fuel G = (Return None, G) ∧
  Eulerian_circuit_2 fuel G = (Return None, G) ∧
  Eulerian_circuit_3 fuel G = (Return None, G).
Proof.
  intros Heul. unfold Eulerian_circuit_1, Eulerian_circuit_2, Eulerian_circuit_3.
  by rewrite Heul.
Qed.

Lemma C4_witness :
  Eulerian_circuit_1 0 path_012 = (Return None, path_012) ∧
  Eulerian_circuit_2 0 path_012 = (Return None, path_012) ∧
  Eulerian_circuit_3 0 path_012 = (Return None, path_012).
Proof.
  apply (C4_not_eulerian_returns_None path_012 0%nat).
  vm_compute. reflexivity.
Defined.

(** C5: on a graph without a vertex of positive degree
    [all_positive_degree_vertices_connected] raises [IndexError], from
    taking the first element of the empty list [pos_deg]. *)
Theorem C5_no_positive_degree_raises (G : Graph) (fuel : nat) :
  Forall (λ p, p.2 = []) G →
  pos_deg G = [] ∧
  all_positive_degree_vertices_connected fuel G = Raise IndexError.
Proof.
  intros Hall. pose proof (pos_deg_nil G Hall) as Hpos. split; [done|].
  unfold all_positive_degree_vertices_connected. by rewrite Hpos.
Qed.

Lemma C5_witness :
  pos_deg edgeless_01 = [] ∧
  all_positive_degree_vertices_connected 10 edgeless_01 = Raise IndexError.
Proof.
  apply (C5_no_positive_degree_raises edgeless_01 10%nat).
  by_evaluation.
Defined.

(** C6, as the code has it: the graph with the edges 0-1, 1-2, 2-3, 3-4,
    4-1, 1-5, 5-0 is Eulerian.  Every degree is even and the connectivity
    check succeeds, the Eulerian test returns [True], and each builder
    returns a circuit of eight vertices through the seven edges, not
    [None]. *)
Theorem C6_G3_is_eulerian (k : nat) :
  forallb (λ p, Nat.even (nx.degree p.1 p.2)) G3 = true ∧
  all_positive_degree_vertices_connected (nx.bfs_fuel G3) G3 = Return true ∧
  nx.is_eulerian G3 = Return true ∧
  ∃ C1 C2 C3,
    (Eulerian_circuit_1 (circuit_fuel G3 + k) G3).1 = Return (Some C1) ∧
    (Eulerian_circuit_2 (circuit_fuel G3 + k) G3).1 = Return (Some C2) ∧
    (Eulerian_circuit_3 (circuit_fuel G3 + k) G3).1 = Return (Some C3) ∧
    eulerian_circuit_of G3 C1 ∧ eulerian_circuit_of G3 C2 ∧
    eulerian_circuit_of G3 C3 ∧
    length C1 = 8%nat ∧ length C2 = 8%nat ∧ length C3 = 8%nat.
Proof.
  assert (nx.is_eulerian G3 = Return true) as Heul by (vm_compute; reflexivity).
  assert (0 ∈ nx.nodes G3) as H0 by by_evaluation.
  assert (canonical_nodes G3) as Hcan by (vm_compute; reflexivity).
  assert (circuit_fuel G3 ≤ circuit_fuel G3 + k)%nat as Hfuel by lia.
  split; [vm_compute; reflexivity|]. split; [vm_compute; reflexivity|].
  split; [exact Heul|].
  destruct (Eulerian_circuit_1_correct G3 _ G3_wf Heul H0 Hfuel) as (C1 & HR1 & HC1 & _).
  destruct (Eulerian_circuit_2_correct G3 _ G3_wf Heul Hcan Hfuel) as (C2 & HR2 & HC2 & _).
  destruct (Eulerian_circuit_3_correct G3 _ G3_wf Heul H0 Hfuel) as (C3 & HR3 & HC3 & _).
  exists C1, C2, C3. rewrite HR1, HR2, HR3.
  do 3 (split; [reflexivity|]).
  split; [exact HC1|]. split; [exact HC2|]. split; [exact HC3|].
  destruct HC1 as (_ & -> & _), HC2 as (_ & -> & _), HC3 as (_ & -> & _).
  split; [|split]; vm_compute; reflexivity.
Qed.

(** C6 as stated fails: the Eulerian test returns [True] for this graph and
    the builders return circuits. *)
Lemma C6_counterexample :
  nx.is_eulerian G3 = Return true ∧
  (Eulerian_circuit_1 (circuit_fuel G3) G3).1
    = Return (Some [0; 1; 2; 3; 4; 1; 5; 0]) ∧
  (Eulerian_circuit_2 (circuit_fuel G3) G3).1
    = Return (Some [0; 5; 1; 4; 3; 2; 1; 0]) ∧
  (Eulerian_circuit_3 (circuit_fuel G3) G3).1
    = Return (Some [0; 5; 1; 4; 3; 2; 1; 0]).
Proof. split_and!; vm_compute; reflexivity. Qed.

(** C7: each builder terminates on every graph.  [any_fuel G] iterations
    are never used up, since an iteration of the loop either takes a pair
    out of the edge tracker and pushes, or pops; and what a builder does
    with [any_fuel G] iterations it does with any larger number. *)
Theorem C7_builders_terminate (G : Graph) (k : nat) :
  ((Eulerian_circuit_1 (any_fuel G) G).1 ≠ OutOfFuel ∧
   Eulerian_circuit_1 (any_fuel G + k) G = Eulerian_circuit_1 (any_fuel G) G) ∧
  ((Eulerian_circuit_2 (any_fuel G) G).1 ≠ OutOfFuel ∧
   Eulerian_circuit_2 (any_fuel G + k) G = Eulerian_circuit_2 (any_fuel G) G) ∧
  ((Eulerian_circuit_3 (any_fuel G) G).1 ≠ OutOfFuel ∧
   Eulerian_circuit_3 (any_fuel G + k) G = Eulerian_circuit_3 (any_fuel G) G).
Proof.
  pose proof (Eulerian_circuit_1_terminates G 0) as H1.
  pose proof (Eulerian_circuit_2_terminates G 0) as H2.
  pose proof (Eulerian_circuit_3_terminates G 0) as H3.
  rewrite Nat.add_0_r in H1, H2, H3.
  split; [split; [done|] | split; (split; [done|])].
  - revert H1. unfold Eulerian_circuit_1.
    destruct (nx.is_eulerian G) as [[]| |]; try done. apply loop_1_fuel_mono.
  - revert H2. unfold Eulerian_circuit_2.
    destruct (nx.is_eulerian G) as [[]| |]; try done. simpl.
    intros H2. by rewrite loop_2_fuel_mono.
  - revert H3. unfold Eulerian_circuit_3.
    destruct (nx.is_eulerian G) as [[]| |]; try done. simpl.
    intros H3. by rewrite loop_3_fuel_mono.
Qed.

(** C8: on a graph that passes the Eulerian test [Eulerian_circuit_2]
    returns a sequence of matrix indices: every element is an integer from
    0 to [|V|-1].  Each element is the label of the node it stands for
    exactly when the nodes of the graph, in matrix order, are
    [0 .. |V|-1]. *)
Theorem C8_variant_2_returns_indices (G : Graph) (fuel : nat) :
  wf_graph G → nx.is_eulerian G = Return true → (circuit_fuel G ≤ fuel)%nat →
  ∃ C, (Eulerian_circuit_2 fuel G).1 = Return (Some C) ∧
       Forall (λ x, 0 ≤ x < Z.of_nat (length (nx.nodes G))) C ∧
       (Forall (λ x, nx.nodes G !! Z.to_nat x = Some x) C ↔ canonical_nodes G).
Proof.
  intros Hwf Heul Hfuel.
  destruct (Eulerian_circuit_2_returns G fuel Hwf Heul Hfuel)
    as (C & -> & _ & _ & Hrange & Hall).
  assert (length (nx.nodes G) = length G) as Hlen by apply length_fmap.
  exists C. split; [done|]. split; [by rewrite Hlen|].
  rewrite Forall_forall in Hrange. unfold canonical_nodes.
  rewrite Forall_forall. split.
  - intros Hlabel. apply list_eq. intros i.
    destruct (decide (i < length G)%nat) as [Hi|Hi].
    + rewrite lookup_seqZ_lt by lia.
      replace (0 + Z.of_nat i) with (Z.of_nat i) by lia.
      rewrite <-(Nat2Z.id i) at 1. by apply Hlabel, Hall.
    + rewrite lookup_seqZ_ge by lia. apply lookup_ge_None. lia.
  - intros Hcan x Hx%Hrange. rewrite Hcan, lookup_seqZ_lt by lia. f_equal. lia.
Qed.

Lemma C8_witness :
  ∃ C, (Eulerian_circuit_2 (circuit_fuel triangle_057) triangle_057).1
         = Return (Some C) ∧
       Forall (λ x, 0 ≤ x < Z.of_nat (length (nx.nodes triangle_057))) C ∧
       (Forall (λ x, nx.nodes triangle_057 !! Z.to_nat x = Some x) C
        ↔ canonical_nodes triangle_057).
Proof.
  apply (C8_variant_2_returns_indices triangle_057 (circuit_fuel triangle_057)).
  - by_evaluation.
  - vm_compute. reflexivity.
  - lia.
Defined.

(** On the triangle with the nodes 0, 5, 7 the indices 1 and 2 that
    variant 2 returns are no nodes of the graph. *)
Example variant_2_indices_are_not_labels :
  nx.nodes triangle_057 = [0; 5; 7] ∧
  (Eulerian_circuit_2 (circuit_fuel triangle_057) triangle_057).1
    = Return (Some [0; 2; 1; 0]).
Proof. split; vm_compute; reflexivity. Qed.

(** C9, as the code has it: on a graph that passes the test
    [nx.is_eulerian] and has a node 0, [Eulerian_circuit_1] and
    [Eulerian_circuit_3] return an Eulerian circuit of the graph that begins
    and ends at the vertex 0, wherever 0 stands among the nodes.  The list
    of [Eulerian_circuit_2] begins and ends with the matrix index 0; the
    Eulerian circuit that it stands for begins and ends at the first node
    of the graph, [list(G)[0]]. *)
Theorem C9_circuit_starts_and_ends_at_0 (G : Graph) (fuel : nat) :
  wf_graph G → nx.is_eulerian G = Return true → 0 ∈ nx.nodes G →
  (circuit_fuel G ≤ fuel)%nat →
  ∃ C1 C2 C3,
    (Eulerian_circuit_1 fuel G).1 = Return (Some C1) ∧
    (Eulerian_circuit_2 fuel G).1 = Return (Some C2) ∧
    (Eulerian_circuit_3 fuel G).1 = Return (Some C3) ∧
    (eulerian_circuit_of G C1 ∧ head C1 = Some 0 ∧ last C1 = Some 0) ∧
    (eulerian_circuit_of G C3 ∧ head C3 = Some 0 ∧ last C3 = Some 0) ∧
    (head C2 = Some 0 ∧ last C2 = Some 0) ∧
    (eulerian_circuit_of G (node_at G <$> C2) ∧
     head (node_at G <$> C2) = head (nx.nodes G) ∧
     last (node_at G <$> C2) = head (nx.nodes G)).
Proof.
  intros Hwf Heul H0 Hfuel.
  destruct (Eulerian_circuit_1_correct G fuel Hwf Heul H0 Hfuel)
    as (C1 & -> & Hc1 & Hh1 & Hl1).
  destruct (Eulerian_circuit_2_returns G fuel Hwf Heul Hfuel)
    as (C2 & Hr2 & Hh2 & Hl2 & _ & _).
  destruct (Eulerian_circuit_2_labels G fuel Hwf Heul Hfuel)
    as (C2' & Hr2' & _ & Hc2 & Hh2' & Hl2').
  rewrite Hr2 in Hr2'. injection Hr2' as <-. rewrite Hr2.
  destruct (Eulerian_circuit_3_correct G fuel Hwf Heul H0 Hfuel)
    as (C3 & -> & Hc3 & Hh3 & Hl3).
  exists C1, C2, C3. done.
Qed.

Lemma C9_witness :
  ∃ C1 C2 C3,
    (Eulerian_circuit_1 (circuit_fuel G1) G1).1 = Return (Some C1) ∧
    (Eulerian_circuit_2 (circuit_fuel G1) G1).1 = Return (Some C2) ∧
    (Eulerian_circuit_3 (circuit_fuel G1) G1).1 = Return (Some C3) ∧
    (eulerian_circuit_of G1 C1 ∧ head C1 = Some 0 ∧ last C1 = Some 0) ∧
    (eulerian_circuit_of G1 C3 ∧ head C3 = Some 0 ∧ last C3 = Some 0) ∧
    (head C2 = Some 0 ∧ last C2 = Some 0) ∧
    (eulerian_circuit_of G1 (node_at G1 <$> C2) ∧
     head (node_at G1 <$> C2) = head (nx.nodes G1) ∧
     last (node_at G1 <$> C2) = head (nx.nodes G1)).
Proof.
  apply (C9_circuit_starts_and_ends_at_0 G1 (circuit_fuel G1)).
  - by_evaluation.
  - vm_compute. reflexivity.
  - by_evaluation.
  - lia.
Defined.

(** C9 as stated fails for variant 2 on the graph [G4] with its edges added
    in the opposite order: the graph passes the test and has the vertex 0,
    as its third node; the list that variant 2 returns begins and ends with
    the index 0, which stands for the vertex 4, the circuit being
    4, 0, 1, 2, 0, 3, 4; read as vertices the list is no circuit of the
    graph, since 2 and 4 are not adjacent. *)
Lemma C9_counterexample :
  wf_graph G4_reversed ∧
  nx.is_eulerian G4_reversed = Return true ∧
  nx.nodes G4_reversed = [4; 3; 0; 2; 1] ∧
  (Eulerian_circuit_2 (circuit_fuel G4_reversed) G4_reversed).1
    = Return (Some [0; 2; 4; 3; 2; 1; 0]) ∧
  node_at G4_reversed <$> [0; 2; 4; 3; 2; 1; 0] = [4; 0; 1; 2; 0; 3; 4] ∧
  has_edge G4_reversed 2 4 = false ∧
  ¬ eulerian_circuit_of G4_reversed [0; 2; 4; 3; 2; 1; 0].
Proof.
  split_and!.
  - by_evaluation.
  - vm_compute. reflexivity.
  - vm_compute. reflexivity.
  - vm_compute. reflexivity.
  - vm_compute. reflexivity.
  - vm_compute. reflexivity.
  - intros (_ & _ & Hpairs). specialize (Hpairs 2 4). vm_compute in Hpairs.
    discriminate.
Qed.

(** C10: on a graph that passes the Eulerian test and has no node 0,
    [Eulerian_circuit_3] raises [KeyError] at the lookup [G[0]] of its first
    iteration; it returns neither a circuit nor [None]. *)
Theorem C10_variant_3_raises_without_node_0 (G : Graph) (fuel : nat) :
  nx.is_eulerian G = Return true → 0 ∉ nx.nodes G →
  nx.adj G 0 = None ∧
  Eulerian_circuit_3 (S fuel) G = (Raise KeyError, G).
Proof.
  intros Heul H0%adj_None. split; [done|].
  unfold Eulerian_circuit_3. rewrite Heul. simpl. by rewrite H0.
Qed.

Lemma C10_witness :
  nx.adj triangle_123 0 = None ∧
  Eulerian_circuit_3 1 triangle_123 = (Raise KeyError, triangle_123).
Proof.
  apply (C10_variant_3_raises_without_node_0 triangle_123 0%nat).
  - vm_compute. reflexivity.
  - by_evaluation.
Defined.

(** * Further facts about the four functions *)

(** ** The connectivity check on arbitrary input *)

Lemma bfs_loop_fuel_mono fuel k G queue seen :
  bfs_loop fuel G queue seen ≠ OutOfFuel →
  bfs_loop (fuel + k) G queue seen = bfs_loop fuel G queue seen.
Proof.
  revert queue seen.
  induction fuel as [|fuel IH]; intros queue seen; [done|].
  simpl. destruct queue as [|v queue]; [done|].
  case_decide; [apply IH|]. destruct (nx.adj G v); [apply IH | done].
Qed.

(** ** The vertices on a circuit *)

Lemma occurrences_pos (e : Z * Z) l : (0 < occurrences e l)%nat ↔ e ∈ l.
Proof.
  unfold occurrences. split.
  - intros Hpos. destruct (filter _ l) as [|p k] eqn:Hf; [simpl in Hpos; lia|].
    assert (p ∈ filter (λ p, p = e) l) as Hp by (rewrite Hf; by left).
    by apply list_elem_of_filter in Hp as [-> ?].
  - intros He.
    assert (e ∈ filter (λ p, p = e) l) as Hin by (by apply list_elem_of_filter).
    destruct (filter _ l); [by apply elem_of_nil in Hin | simpl; lia].
Qed.

Lemma consecutive_pairs_elem C a b :
  (a, b) ∈ consecutive_pairs C → a ∈ C ∧ b ∈ C.
Proof.
  unfold consecutive_pairs. intros Hab. split.
  - by eapply elem_of_zip_l.
  - apply elem_of_zip_r in Hab. destruct C; [done | by right].
Qed.

Lemma elem_consecutive_pairs C v :
  (2 ≤ length C)%nat → v ∈ C →
  ∃ w, (v, w) ∈ consecutive_pairs C ∨ (w, v) ∈ consecutive_pairs C.
Proof.
  unfold consecutive_pairs.
  induction C as [|x C IH]; [by intros _ ?%elem_of_nil|].
  destruct C as [|y C]; [simpl; lia|]. intros _ Hv.
  apply elem_of_cons in Hv as [-> | Hv].
  { exists y. left. by left. }
  destruct C as [|z C].
  { apply list_elem_of_singleton in Hv as ->. exists x. right. by left. }
  destruct IH as [w Hw]; [simpl; lia | done |].
  exists w. destruct Hw; [left | right]; by right.
Qed.

(** An Eulerian circuit of a connected graph passes through every node, and
    through nodes only. *)
Lemma eulerian_circuit_vertices G C s :
  wf_graph G → connected G → eulerian_circuit_of G C →
  head C = Some s → s ∈ nx.nodes G →
  ∀ v, v ∈ C ↔ v ∈ nx.nodes G.
Proof.
  intros Hwf Hconn (_ & Hlen & Hocc) Hhead Hs v.
  pose proof (wf_nodes_NoDup G Hwf) as Hnd.
  assert (∀ a b, (a, b) ∈ consecutive_pairs C → (a, b) ∈ dir_edges G) as Hedge.
  { intros a b Hab%occurrences_pos. specialize (Hocc a b).
    destruct (has_edge G a b) eqn:Hhas; [|lia].
    by apply has_edge_dir_edges. }
  split.
  - intros Hv. destruct C as [|c0 [|c1 C]]; [done | |].
    + apply list_elem_of_singleton in Hv. by simplify_eq/=.
    + destruct (elem_consecutive_pairs (c0 :: c1 :: C) v) as [w [Hw|Hw]];
        [simpl; lia | done | |].
      * eapply dir_edges_node, Hedge, Hw.
      * eapply dir_edges_node, dir_edges_sym, Hedge, Hw. done.
  - intros Hv. destruct (decide (v = s)) as [->|Hne].
    { destruct C; simplify_eq/=. by left. }
    destruct (rtc_inv _ _ (Hconn v s Hv Hs)) as [? | (y & Hvy & _)]; [done|].
    pose proof (Hocc v y) as Ho.
    rewrite (proj2 (has_edge_dir_edges G v y Hnd) Hvy) in Ho.
    destruct (decide (0 < occurrences (v, y) (consecutive_pairs C))%nat) as [Hp|Hp].
    + by apply occurrences_pos, consecutive_pairs_elem in Hp as [? _].
    + assert (0 < occurrences (y, v) (consecutive_pairs C))%nat as Hq by lia.
      by apply occurrences_pos, consecutive_pairs_elem in Hq as [_ ?].
Qed.

(** ** When the builders raise *)

Lemma Eulerian_circuit_1_without_node_0 G fuel :
  nx.is_eulerian G = Return true → 0 ∉ nx.nodes G →
  Eulerian_circuit_1 (S fuel) G = (Raise NetworkXError, G).
Proof.
  intros Heul H0%adj_None. unfold Eulerian_circuit_1. rewrite Heul.
  simpl. unfold nx.edges_at. by rewrite H0.
Qed.

Lemma Eulerian_circuit_3_without_node_0 G fuel :
  nx.is_eulerian G = Return true → 0 ∉ nx.nodes G →
  Eulerian_circuit_3 (S fuel) G = (Raise KeyError, G).
Proof.
  intros Heul H0%adj_None. unfold Eulerian_circuit_3. rewrite Heul.
  simpl. by rewrite H0.
Qed.

(** ** A graph that has lost its edges *)

Lemma without_edges_pos_deg G : pos_deg (without_edges G) = [].
Proof.
  apply pos_deg_nil, Forall_forall. unfold without_edges.
  by intros p (n & -> & _)%list_elem_of_fmap.
Qed.

Lemma plain_bfs_isolated fuel G a :
  nx.adj G a = Some [] → nx.plain_bfs (S (S fuel)) G [a] ∅ = Return {[a]}.
Proof.
  intros Ha. cbn [nx.plain_bfs]. rewrite decide_False by set_solver.
  rewrite Ha. cbn [app]. by rewrite union_empty_r_L.
Qed.

Lemma without_edges_not_eulerian G :
  (2 ≤ length G)%nat → nx.is_eulerian (without_edges G) = Return false.
Proof.
  intros Hlen. unfold nx.is_eulerian, without_edges.
  assert (forallb (λ p, Nat.even (nx.degree p.1 p.2))
            ((λ n, (n, [])) <$> nx.nodes G) = true) as ->.
  { apply forallb_forall. intros p Hp%list_elem_of_In.
    by apply list_elem_of_fmap in Hp as (n & -> & _). }
  assert (length ((λ n : Z, (n, @nil Z)) <$> nx.nodes G) = length G) as Hl.
  { unfold nx.nodes. by rewrite !length_fmap. }
  destruct G as [|[a na] G]; [simpl in Hlen; lia|].
  unfold nx.is_connected. cbn [nx.nodes fmap list_fmap fst].
  change (nx.bfs_fuel ?H) with (S (S (sum_list ((λ p, S (length p.2)) <$> H)))).
  rewrite plain_bfs_isolated.
  - cbn [nx.nodes fmap list_fmap fst] in Hl. rewrite Hl, size_singleton.
    rewrite bool_decide_eq_false_2; [done | lia].
  - cbn [nx.adj fst snd]. by rewrite decide_True.
Qed.

(** ** Nodes without neighbours *)

Lemma isolated_not_connected G n :
  wf_graph G → (n, []) ∈ G → (2 ≤ length G)%nat → ¬ connected G.
Proof.
  intros Hwf Hn Hlen Hconn. pose proof (wf_nodes_NoDup G Hwf) as Hnd.
  assert (∃ m, m ∈ nx.nodes G ∧ m ≠ n) as (m & Hm & Hne).
  { unfold nx.nodes in *. destruct G as [|[a na] [|[b nb] G]]; [simpl in Hlen; lia..|].
    csimpl in Hnd. apply NoDup_cons in Hnd as [Hab _].
    destruct (decide (a = n)) as [->|].
    - exists b. split; [set_solver|]. intros ->. apply Hab. by left.
    - exists a. split; [by left | done]. }
  assert (n ∈ nx.nodes G) as Hin.
  { apply list_elem_of_fmap. by exists (n, []). }
  destruct (rtc_inv _ _ (Hconn n m Hin Hm)) as [? | (y & Hny & _)]; [done|].
  apply (dir_edges_adj G n y Hnd) in Hny as (nbrs & Hadj & Hy).
  rewrite (elem_adj_Some G n [] Hnd Hn) in Hadj.
  injection Hadj as <-. by apply elem_of_nil in Hy.
Qed.

(** ** The order in which nodes and edges were added *)

Lemma same_edges_reach G G' u v :
  dir_edges G ⊆ dir_edges G' → reach G u v → reach G' u v.
Proof.
  intros Hsub. unfold reach. apply rtc_subrel. intros x y. apply Hsub.
Qed.

Lemma same_edges_connected G G' :
  nx.nodes G' ⊆ nx.nodes G → dir_edges G ⊆ dir_edges G' →
  connected G → connected G'.
Proof.
  intros Hn He Hconn u v Hu Hv.
  apply (same_edges_reach G G'); [done|]. apply Hconn; by apply Hn.
Qed.

Lemma all_even_out_deg G :
  NoDup (nx.nodes G) →
  all_even G ↔ ∀ x, Nat.Even (out_deg (dir_edges G) x).
Proof.
  intros Hnd. split.
  - intros Heven x. rewrite out_deg_dir_edges by done.
    destruct (nx.adj G x) as [nbrs|] eqn:Hadj; [|by exists 0%nat].
    simpl. eapply Heven, adj_Some_elem, Hadj.
  - intros Heven u nbrs Hin. specialize (Heven u).
    by rewrite out_deg_dir_edges, (elem_adj_Some G u nbrs Hnd Hin) in Heven.
Qed.

Lemma same_edges_all_even G G' :
  wf_graph G → wf_graph G' →
  dir_edges G ⊆ dir_edges G' → dir_edges G' ⊆ dir_edges G →
  all_even G → all_even G'.
Proof.
  intros Hwf Hwf' He He'.
  rewrite !all_even_out_deg by (by apply wf_nodes_NoDup).
  intros Heven x. rewrite <-(out_deg_perm (dir_edges G) (dir_edges G')); [done|].
  apply NoDup_Permutation; [by apply dir_edges_NoDup.. |].
  intros p. split; [apply He | apply He'].
Qed.

Lemma same_edges_pos_deg G G' :
  NoDup (nx.nodes G) → NoDup (nx.nodes G') →
  dir_edges G ⊆ dir_edges G' → pos_deg G ⊆ pos_deg G'.
Proof.
  intros Hnd Hnd' He v. rewrite !elem_of_pos_deg by done.
  intros [w Hw]. exists w. by apply He.
Qed.

Lemma same_edges_pos_deg_connected G G' :
  pos_deg G' ⊆ pos_deg G → dir_edges G ⊆ dir_edges G' →
  pos_deg_connected G → pos_deg_connected G'.
Proof.
  intros Hp He Hconn u v Hu Hv.
  apply (same_edges_reach G G'); [done|]. apply Hconn; by apply Hp.
Qed.

Lemma same_graph_is_eulerian G G' :
  wf_graph G → wf_graph G' →
  nx.nodes G ⊆ nx.nodes G' → nx.nodes G' ⊆ nx.nodes G →
  dir_edges G ⊆ dir_edges G' → dir_edges G' ⊆ dir_edges G →
  nx.is_eulerian G = nx.is_eulerian G'.
Proof.
  intros Hwf Hwf' Hn Hn' He He'.
  destruct (decide (G = [])) as [->|Hne].
  { destruct G' as [|[a na] G']; [done|].
    specialize (Hn' a). rewrite elem_of_nil in Hn'. destruct Hn'. by left. }
  assert (G' ≠ []) as Hne'.
  { intros ->. destruct G as [|[a na] G]; [done|].
    specialize (Hn a). rewrite elem_of_nil in Hn. destruct Hn. by left. }
  destruct (is_eulerian_spec G Hwf Hne) as (b & -> & Hb).
  destruct (is_eulerian_spec G' Hwf' Hne') as (b' & -> & Hb').
  f_equal. apply eq_bool_prop_intro.
  rewrite !Is_true_true, Hb, Hb'. split.
  - intros [Heven Hconn]. split.
    + by apply (same_edges_all_even G G').
    + by apply (same_edges_connected G G').
  - intros [Heven Hconn]. split.
    + by apply (same_edges_all_even G' G).
    + by apply (same_edges_connected G' G).
Qed.

Lemma same_graph_connectivity_check G G' fuel fuel' :
  wf_graph G → wf_graph G' →
  dir_edges G ⊆ dir_edges G' → dir_edges G' ⊆ dir_edges G →
  (nx.bfs_fuel G ≤ fuel)%nat → (nx.bfs_fuel G' ≤ fuel')%nat →
  all_positive_degree_vertices_connected fuel G
  = all_positive_degree_vertices_connected fuel' G'.
Proof.
  intros Hwf Hwf' He He' Hfuel Hfuel'.
  pose proof (wf_nodes_NoDup G Hwf) as Hnd.
  pose proof (wf_nodes_NoDup G' Hwf') as Hnd'.
  pose proof (same_edges_pos_deg G G' Hnd Hnd' He) as Hp.
  pose proof (same_edges_pos_deg G' G Hnd' Hnd He') as Hp'.
  destruct (pos_deg G) as [|u rest] eqn:Hpd.
  { unfold all_positive_degree_vertices_connected. rewrite Hpd.
    destruct (pos_deg G') as [|u' rest']; [done|].
    specialize (Hp' u'). rewrite elem_of_nil in Hp'. destruct Hp'. by left. }
  destruct (pos_deg G') as [|u' rest'] eqn:Hpd'.
  { specialize (Hp u). rewrite elem_of_nil in Hp. destruct Hp. by left. }
  destruct (connectivity_check_spec G fuel u rest Hwf Hpd Hfuel)
    as (seen & _ & -> & _ & _ & Hsize).
  destruct (connectivity_check_spec G' fuel' u' rest' Hwf' Hpd' Hfuel')
    as (seen' & _ & -> & _ & _ & Hsize').
  f_equal. apply bool_decide_ext. rewrite Hsize, Hsize'.
  rewrite <-Hpd in Hp, Hp'. rewrite <-Hpd' in Hp, Hp'. split.
  - by apply same_edges_pos_deg_connected.
  - by apply same_edges_pos_deg_connected.
Qed.

Lemma circuit_fuel_le_bfs_fuel G : (circuit_fuel G ≤ nx.bfs_fuel G)%nat.
Proof.
  unfold circuit_fuel, nx.bfs_fuel. rewrite length_dir_edges.
  induction G as [|p G IH]; csimpl; lia.
Qed.

Lemma None_iff_test_fails G fuel :
  wf_graph G → (circuit_fuel G ≤ fuel)%nat →
  ((Eulerian_circuit_1 fuel G).1 = Return None
   ↔ nx.is_eulerian G = Return false) ∧
  ((Eulerian_circuit_2 fuel G).1 = Return None
   ↔ nx.is_eulerian G = Return false) ∧
  ((Eulerian_circuit_3 fuel G).1 = Return None
   ↔ nx.is_eulerian G = Return false).
Proof.
  intros Hwf Hfuel. destruct (decide (G = [])) as [->|Hne]; [done|].
  destruct (is_eulerian_spec G Hwf Hne) as ([|] & Heul & _).
  - destruct (Eulerian_circuit_2_returns G fuel Hwf Heul Hfuel) as (C2 & -> & _).
    destruct (decide (0 ∈ nx.nodes G)) as [H0|H0].
    + destruct (Eulerian_circuit_1_correct G fuel Hwf Heul H0 Hfuel)
        as (C1 & -> & _).
      destruct (Eulerian_circuit_3_correct G fuel Hwf Heul H0 Hfuel)
        as (C3 & -> & _).
      by rewrite Heul.
    + destruct fuel as [|fuel]; [unfold circuit_fuel in Hfuel; lia|].
      rewrite (Eulerian_circuit_1_without_node_0 G fuel Heul H0).
      rewrite (Eulerian_circuit_3_without_node_0 G fuel Heul H0).
      by rewrite Heul.
  - unfold Eulerian_circuit_1, Eulerian_circuit_2, Eulerian_circuit_3.
    by rewrite Heul.
Qed.

(** ** Whatever a builder returns is a circuit *)

Lemma Eulerian_circuit_1_fuel_mono fuel k G :
  (Eulerian_circuit_1 fuel G).1 ≠ OutOfFuel →
  Eulerian_circuit_1 (fuel + k) G = Eulerian_circuit_1 fuel G.
Proof.
  unfold Eulerian_circuit_1. destruct (nx.is_eulerian G) as [[|]| |]; try done.
  apply loop_1_fuel_mono.
Qed.

Lemma Eulerian_circuit_2_fuel_mono fuel k G :
  (Eulerian_circuit_2 fuel G).1 ≠ OutOfFuel →
  Eulerian_circuit_2 (fuel + k) G = Eulerian_circuit_2 fuel G.
Proof.
  unfold Eulerian_circuit_2. destruct (nx.is_eulerian G) as [[|]| |]; try done.
  simpl. intros H. by rewrite loop_2_fuel_mono.
Qed.

Lemma Eulerian_circuit_3_fuel_mono fuel k G :
  (Eulerian_circuit_3 fuel G).1 ≠ OutOfFuel →
  Eulerian_circuit_3 (fuel + k) G = Eulerian_circuit_3 fuel G.
Proof.
  unfold Eulerian_circuit_3. destruct (nx.is_eulerian G) as [[|]| |]; try done.
  simpl. intros H. by rewrite loop_3_fuel_mono.
Qed.

Lemma returned_lists_are_circuits G fuel C :
  wf_graph G → (circuit_fuel G ≤ fuel)%nat →
  ((Eulerian_circuit_1 fuel G).1 = Return (Some C) → eulerian_circuit_of G C) ∧
  ((Eulerian_circuit_3 fuel G).1 = Return (Some C) → eulerian_circuit_of G C) ∧
  ((Eulerian_circuit_2 fuel G).1 = Return (Some C) →
   eulerian_circuit_of G (node_at G <$> C)).
Proof.
  intros Hwf Hfuel. destruct (decide (G = [])) as [->|Hne]; [done|].
  destruct (is_eulerian_spec G Hwf Hne) as ([|] & Heul & _).
  - destruct (Eulerian_circuit_2_labels G fuel Hwf Heul Hfuel)
      as (C2 & -> & _ & Hc2 & _).
    destruct (decide (0 ∈ nx.nodes G)) as [H0|H0].
    + destruct (Eulerian_circuit_1_correct G fuel Hwf Heul H0 Hfuel)
        as (C1 & -> & Hc1 & _).
      destruct (Eulerian_circuit_3_correct G fuel Hwf Heul H0 Hfuel)
        as (C3 & -> & Hc3 & _).
      simpl. split_and!; by intros [= <-].
    + destruct fuel as [|fuel]; [unfold circuit_fuel in Hfuel; lia|].
      rewrite (Eulerian_circuit_1_without_node_0 G fuel Heul H0).
      rewrite (Eulerian_circuit_3_without_node_0 G fuel Heul H0).
      simpl. split_and!; [done | done | by intros [= <-]].
  - unfold Eulerian_circuit_1, Eulerian_circuit_2, Eulerian_circuit_3.
    by rewrite Heul.
Qed.

(** ** A graph with an Eulerian circuit passes the test *)

Lemma occurrences_cons (e p : Z * Z) l :
  occurrences e (p :: l)
  = ((if decide (p = e) then 1 else 0) + occurrences e l)%nat.
Proof. unfold occurrences. rewrite filter_cons. by case_decide. Qed.

Lemma occurrences_le_NoDup (l : list (Z * Z)) :
  (∀ e, occurrences e l ≤ 1)%nat → NoDup l.
Proof.
  induction l as [|p l IH]; intros Hle; [constructor|].
  apply NoDup_cons. split.
  - intros Hp%occurrences_pos. specialize (Hle p).
    rewrite occurrences_cons, decide_True in Hle by done. lia.
  - apply IH. intros e. specialize (Hle e). rewrite occurrences_cons in Hle. lia.
Qed.

Lemma circuit_walk_pairs G C :
  wf_graph G → eulerian_circuit_of G C → dir_edges G ≡ₚ walk_pairs C.
Proof.
  intros Hwf (_ & _ & Hocc). pose proof (wf_nodes_NoDup G Hwf) as Hnd.
  assert (∀ u v, occurrences (u, v) (walk_pairs C)
                 = if has_edge G u v then 1%nat else 0%nat) as Hw.
  { intros u v. by rewrite occurrences_walk_pairs. }
  apply NoDup_Permutation.
  - by apply dir_edges_NoDup.
  - apply occurrences_le_NoDup. intros [u v]. rewrite Hw.
    destruct (has_edge G u v); lia.
  - intros [u v]. rewrite <-has_edge_dir_edges, <-occurrences_pos, Hw by done.
    destruct (has_edge G u v); split; (done || lia).
Qed.

Lemma walk_pairs_parity l a b x :
  head l = Some a → last l = Some b →
  Nat.odd (out_deg (walk_pairs l) x) = bool_decide (a ≠ b ∧ (x = a ∨ x = b)).
Proof.
  revert a. induction l as [|c l IH]; intros a Hhead Hlast; [done|].
  simpl in Hhead. injection Hhead as ->.
  destruct l as [|y l].
  { simpl in Hlast. injection Hlast as ->. simpl.
    symmetry. apply bool_decide_eq_false. tauto. }
  change (walk_pairs (a :: y :: l))
    with ((a, y) :: (y, a) :: walk_pairs (y :: l)).
  rewrite !out_deg_cons, !Nat.odd_add, (IH y); [|done|by rewrite <-Hlast].
  repeat case_decide; repeat case_bool_decide; simpl; try done;
    exfalso; naive_solver.
Qed.

Lemma walk_reach_head l a x :
  head l = Some a → x ∈ l →
  rtc (λ p q, (p, q) ∈ walk_pairs l) a x ∧
  rtc (λ p q, (p, q) ∈ walk_pairs l) x a.
Proof.
  revert a. induction l as [|c l IH]; intros a Hhead Hx; [done|].
  simpl in Hhead. injection Hhead as ->.
  apply elem_of_cons in Hx as [->|Hx]; [done|].
  destruct l as [|y l]; [by apply elem_of_nil in Hx|].
  destruct (IH y eq_refl Hx) as [Hto Hfrom].
  change (walk_pairs (a :: y :: l))
    with ((a, y) :: (y, a) :: walk_pairs (y :: l)).
  split.
  - eapply rtc_l; [by left|].
    eapply rtc_subrel; [|exact Hto]. intros p q Hpq. by do 2 right.
  - eapply rtc_r; [|right; by left].
    eapply rtc_subrel; [|exact Hfrom]. intros p q Hpq. by do 2 right.
Qed.

(** Euler's necessary condition, for the graphs of this development. *)
Lemma circuit_even_connected G C :
  wf_graph G → pos_deg G = nx.nodes G → eulerian_circuit_of G C →
  all_even G ∧ connected G.
Proof.
  intros Hwf Hpos Hcirc. pose proof (wf_nodes_NoDup G Hwf) as Hnd.
  pose proof (circuit_walk_pairs G C Hwf Hcirc) as HP.
  destruct Hcirc as ((s & Hhead & Hlast) & _ & _). split.
  - apply all_even_out_deg; [done|]. intros x.
    rewrite (out_deg_perm _ _ x HP). apply Nat.even_spec.
    rewrite <-Nat.negb_odd, (walk_pairs_parity C s s x Hhead Hlast).
    rewrite bool_decide_eq_false_2; [done | tauto].
  - assert (∀ u, u ∈ nx.nodes G → u ∈ C) as Hon.
    { intros u Hu. rewrite <-Hpos in Hu.
      apply elem_of_pos_deg in Hu as [w Hw]; [|done].
      rewrite HP in Hw. by apply walk_pairs_elem in Hw as [? _]. }
    intros u v Hu Hv. unfold reach.
    destruct (walk_reach_head C s u Hhead (Hon u Hu)) as [_ Hus].
    destruct (walk_reach_head C s v Hhead (Hon v Hv)) as [Hsv _].
    eapply rtc_subrel; [|exact (rtc_trans _ _ _ Hus Hsv)].
    intros p q Hpq. by rewrite HP.
Qed.

(** A closed walk that uses every stored pair of the graph once is an
    Eulerian circuit of it. *)
Lemma closed_walk_is_circuit G C s :
  wf_graph G → head C = Some s → last C = Some s →
  NoDup (walk_pairs C) →
  dir_edges G ⊆ walk_pairs C → walk_pairs C ⊆ dir_edges G →
  eulerian_circuit_of G C.
Proof.
  intros Hwf Hhead Hlast Hnd Hsub Hsub'.
  apply (hfinal_eulerian_circuit G s); [done|].
  split; [| done | done | intros ???; apply not_elem_of_nil].
  simpl. apply NoDup_Permutation; [by apply dir_edges_NoDup | done |].
  intros p. split; [apply Hsub | apply Hsub'].
Qed.

(** * Further properties of the four functions *)

(** X1: [all_positive_degree_vertices_connected] terminates on every
    graph, well formed or not: its loop never needs more than
    [nx.bfs_fuel G] iterations (two, plus one for every node and one for
    every stored neighbour), and what it does with that many it does with
    any larger number. *)
Theorem X1_connectivity_check_terminates (G : Graph) (k : nat) :
  all_positive_degree_vertices_connected (nx.bfs_fuel G) G ≠ OutOfFuel ∧
  all_positive_degree_vertices_connected (nx.bfs_fuel G + k) G
  = all_positive_degree_vertices_connected (nx.bfs_fuel G) G.
Proof.
  unfold all_positive_degree_vertices_connected.
  destruct (pos_deg G) as [|u rest]; [done|].
  pose proof (bfs_loop_terminates G (nx.bfs_fuel G) [u] ∅ (bfs_fuel_enough G u))
    as Hterm.
  rewrite (bfs_loop_fuel_mono _ k _ _ _ Hterm).
  split; [|done]. by destruct (bfs_loop _ _ _ _).
Qed.

(** X2: on every simple graph that passes the Eulerian test, whatever its
    node labels, the indices that [Eulerian_circuit_2] returns stand for an
    Eulerian circuit of the graph: replacing each index [i] by the node
    [list(G)[i]] gives a closed sequence that starts at the first node of
    [G], uses every edge of [G] exactly once, and passes through every node
    of [G] and through nothing else. *)
Theorem X2_variant_2_circuit_through_the_node_list (G : Graph) (fuel : nat) :
  wf_graph G → nx.is_eulerian G = Return true → (circuit_fuel G ≤ fuel)%nat →
  ∃ C, Eulerian_circuit_2 fuel G = (Return (Some C), G) ∧
       Forall (λ x, 0 ≤ x < Z.of_nat (length G)) C ∧
       eulerian_circuit_of G (node_at G <$> C) ∧
       head (node_at G <$> C) = head (nx.nodes G) ∧
       last (node_at G <$> C) = head (nx.nodes G) ∧
       ∀ v, v ∈ node_at G <$> C ↔ v ∈ nx.nodes G.
Proof.
  intros Hwf Heul Hfuel.
  destruct (Eulerian_circuit_2_labels G fuel Hwf Heul Hfuel)
    as (C & Hres & Hrange & Hcirc & Hhead & Hlast).
  exists C. split_and!; try done.
  apply is_eulerian_true in Heul as (Hne & _ & Hconn); [|done].
  destruct (nx.nodes G) as [|source rest] eqn:Hnodes.
  { destruct G; simplify_eq/=. }
  rewrite <-Hnodes.
  apply (eulerian_circuit_vertices G _ source); try done.
  rewrite Hnodes. by left.
Qed.

Lemma X2_witness :
  ∃ C, Eulerian_circuit_2 (circuit_fuel G1_bis) G1_bis
         = (Return (Some C), G1_bis) ∧
       Forall (λ x, 0 ≤ x < Z.of_nat (length G1_bis)) C ∧
       eulerian_circuit_of G1_bis (node_at G1_bis <$> C) ∧
       head (node_at G1_bis <$> C) = head (nx.nodes G1_bis) ∧
       last (node_at G1_bis <$> C) = head (nx.nodes G1_bis) ∧
       ∀ v, v ∈ node_at G1_bis <$> C ↔ v ∈ nx.nodes G1_bis.
Proof.
  apply (X2_variant_2_circuit_through_the_node_list G1_bis (circuit_fuel G1_bis)).
  - by_evaluation.
  - vm_compute. reflexivity.
  - lia.
Defined.

(** X3: on a simple graph that passes the Eulerian test and has a node 0,
    the circuits of [Eulerian_circuit_1] and [Eulerian_circuit_3] pass
    through every node of the graph, and every element of them is a node of
    the graph. *)
Theorem X3_circuit_passes_through_every_node (G : Graph) (fuel : nat) :
  wf_graph G → nx.is_eulerian G = Return true → 0 ∈ nx.nodes G →
  (circuit_fuel G ≤ fuel)%nat →
  ∃ C1 C3,
    (Eulerian_circuit_1 fuel G).1 = Return (Some C1) ∧
    (Eulerian_circuit_3 fuel G).1 = Return (Some C3) ∧
    (∀ v, v ∈ C1 ↔ v ∈ nx.nodes G) ∧
    (∀ v, v ∈ C3 ↔ v ∈ nx.nodes G).
Proof.
  intros Hwf Heul H0 Hfuel.
  destruct (Eulerian_circuit_1_correct G fuel Hwf Heul H0 Hfuel)
    as (C1 & -> & Hc1 & Hh1 & _).
  destruct (Eulerian_circuit_3_correct G fuel Hwf Heul H0 Hfuel)
    as (C3 & -> & Hc3 & Hh3 & _).
  apply is_eulerian_true in Heul as (_ & _ & Hconn); [|done].
  exists C1, C3. split_and!; [done | done | |].
  - by apply (eulerian_circuit_vertices G C1 0).
  - by apply (eulerian_circuit_vertices G C3 0).
Qed.

Lemma X3_witness :
  ∃ C1 C3,
    (Eulerian_circuit_1 (circuit_fuel G1) G1).1 = Return (Some C1) ∧
    (Eulerian_circuit_3 (circuit_fuel G1) G1).1 = Return (Some C3) ∧
    (∀ v, v ∈ C1 ↔ v ∈ nx.nodes G1) ∧
    (∀ v, v ∈ C3 ↔ v ∈ nx.nodes G1).
Proof.
  apply (X3_circuit_passes_through_every_node G1 (circuit_fuel G1)).
  - by_evaluation.
  - vm_compute. reflexivity.
  - by_evaluation.
  - lia.
Defined.

(** X4: on a simple graph the outcome of each builder is decided by three
    facts: whether the graph has a node at all, whether it is connected
    with even degrees, and whether 0 is one of its nodes.  Every builder
    raises [NetworkXPointlessConcept] on the graph without nodes.
    [Eulerian_circuit_1] raises [NetworkXError], and [Eulerian_circuit_3]
    raises [KeyError], exactly when the graph has nodes, is connected with
    even degrees and has no node 0; they raise in no other case, and
    [Eulerian_circuit_2] raises on the graph without nodes only.  When
    [Eulerian_circuit_1] raises, the graph is as it was.  Each builder
    returns [None] exactly when the graph has nodes and is not connected
    with even degrees. *)
Theorem X4_when_the_builders_raise (G : Graph) (fuel : nat) :
  wf_graph G → (circuit_fuel G ≤ fuel)%nat →
  (∀ e, (Eulerian_circuit_1 fuel G).1 = Raise e ↔
        (G = [] ∧ e = NetworkXPointlessConcept) ∨
        (G ≠ [] ∧ (all_even G ∧ connected G) ∧ (0 ∉ nx.nodes G) ∧
         e = NetworkXError)) ∧
  (∀ e, (Eulerian_circuit_3 fuel G).1 = Raise e ↔
        (G = [] ∧ e = NetworkXPointlessConcept) ∨
        (G ≠ [] ∧ (all_even G ∧ connected G) ∧ (0 ∉ nx.nodes G) ∧
         e = KeyError)) ∧
  (∀ e, (Eulerian_circuit_2 fuel G).1 = Raise e ↔
        G = [] ∧ e = NetworkXPointlessConcept) ∧
  (∀ e, (Eulerian_circuit_1 fuel G).1 = Raise e →
        (Eulerian_circuit_1 fuel G).2 = G) ∧
  ((Eulerian_circuit_1 fuel G).1 = Return None
   ↔ G ≠ [] ∧ ¬ (all_even G ∧ connected G)) ∧
  ((Eulerian_circuit_2 fuel G).1 = Return None
   ↔ G ≠ [] ∧ ¬ (all_even G ∧ connected G)) ∧
  ((Eulerian_circuit_3 fuel G).1 = Return None
   ↔ G ≠ [] ∧ ¬ (all_even G ∧ connected G)).
Proof.
  intros Hwf Hfuel. destruct (decide (G = [])) as [->|Hne].
  { split_and!; try done; try (intros e; split; [intros [= <-] | ]);
      naive_solver. }
  destruct (is_eulerian_spec G Hwf Hne) as ([|] & Heul & Hiff).
  - assert (all_even G ∧ connected G) as Hec by (by apply Hiff).
    destruct (Eulerian_circuit_2_returns G fuel Hwf Heul Hfuel) as (C2 & -> & _).
    destruct (decide (0 ∈ nx.nodes G)) as [H0|H0].
    + destruct (Eulerian_circuit_1_correct G fuel Hwf Heul H0 Hfuel)
        as (C1 & -> & _).
      destruct (Eulerian_circuit_3_correct G fuel Hwf Heul H0 Hfuel)
        as (C3 & -> & _).
      simpl. split_and!; try done; try (intros e); split; try done; tauto.
    + destruct fuel as [|fuel]; [unfold circuit_fuel in Hfuel; lia|].
      rewrite (Eulerian_circuit_1_without_node_0 G fuel Heul H0).
      rewrite (Eulerian_circuit_3_without_node_0 G fuel Heul H0).
      simpl. split_and!; try done;
        try (intros e; split; [intros [= <-] | ]); try split; try done;
        naive_solver.
  - assert (¬ (all_even G ∧ connected G)) as Hnot.
    { intros H%Hiff. done. }
    unfold Eulerian_circuit_1, Eulerian_circuit_2, Eulerian_circuit_3.
    rewrite Heul. simpl.
    split_and!; try done; try (intros e); split; try done; tauto.
Qed.

Lemma X4_witness :
  (∀ e, (Eulerian_circuit_1 (circuit_fuel triangle_123) triangle_123).1 = Raise e ↔
        (triangle_123 = [] ∧ e = NetworkXPointlessConcept) ∨
        (triangle_123 ≠ [] ∧ (all_even triangle_123 ∧ connected triangle_123) ∧
         (0 ∉ nx.nodes triangle_123) ∧ e = NetworkXError)) ∧
  (∀ e, (Eulerian_circuit_3 (circuit_fuel triangle_123) triangle_123).1 = Raise e ↔
        (triangle_123 = [] ∧ e = NetworkXPointlessConcept) ∨
        (triangle_123 ≠ [] ∧ (all_even triangle_123 ∧ connected triangle_123) ∧
         (0 ∉ nx.nodes triangle_123) ∧ e = KeyError)) ∧
  (∀ e, (Eulerian_circuit_2 (circuit_fuel triangle_123) triangle_123).1 = Raise e ↔
        triangle_123 = [] ∧ e = NetworkXPointlessConcept) ∧
  (∀ e, (Eulerian_circuit_1 (circuit_fuel triangle_123) triangle_123).1 = Raise e →
        (Eulerian_circuit_1 (circuit_fuel triangle_123) triangle_123).2
        = triangle_123) ∧
  ((Eulerian_circuit_1 (circuit_fuel triangle_123) triangle_123).1 = Return None
   ↔ triangle_123 ≠ [] ∧ ¬ (all_even triangle_123 ∧ connected triangle_123)) ∧
  ((Eulerian_circuit_2 (circuit_fuel triangle_123) triangle_123).1 = Return None
   ↔ triangle_123 ≠ [] ∧ ¬ (all_even triangle_123 ∧ connected triangle_123)) ∧
  ((Eulerian_circuit_3 (circuit_fuel triangle_123) triangle_123).1 = Return None
   ↔ triangle_123 ≠ [] ∧ ¬ (all_even triangle_123 ∧ connected triangle_123)).
Proof.
  apply (X4_when_the_builders_raise triangle_123 (circuit_fuel triangle_123)).
  - by_evaluation.
  - lia.
Defined.

(** X5: [Eulerian_circuit_1] cannot be repeated.  After a call that
    returned a circuit the graph has kept its nodes and lost its edges, so
    [all_positive_degree_vertices_connected] raises [IndexError] on it, and
    when it has two nodes or more a second call of any builder on it returns
    [None]. *)
Theorem X5_after_variant_1 (G : Graph) (fuel fuel' : nat) :
  wf_graph G → nx.is_eulerian G = Return true → 0 ∈ nx.nodes G →
  (circuit_fuel G ≤ fuel)%nat →
  ∃ C G',
    Eulerian_circuit_1 fuel G = (Return (Some C), G') ∧
    G' = without_edges G ∧
    all_positive_degree_vertices_connected fuel' G' = Raise IndexError ∧
    ((2 ≤ length G)%nat →
     Eulerian_circuit_1 fuel' G' = (Return None, G') ∧
     Eulerian_circuit_2 fuel' G' = (Return None, G') ∧
     Eulerian_circuit_3 fuel' G' = (Return None, G')).
Proof.
  intros Hwf Heul H0 Hfuel.
  destruct (Eulerian_circuit_1_correct G fuel Hwf Heul H0 Hfuel)
    as (C & Hres & _).
  exists C, (without_edges G). split_and!; [exact Hres | done | |].
  - unfold all_positive_degree_vertices_connected.
    by rewrite without_edges_pos_deg.
  - intros Hlen.
    unfold Eulerian_circuit_1, Eulerian_circuit_2, Eulerian_circuit_3.
    by rewrite (without_edges_not_eulerian G Hlen).
Qed.

Lemma X5_witness :
  ∃ C G',
    Eulerian_circuit_1 (circuit_fuel G1) G1 = (Return (Some C), G') ∧
    G' = without_edges G1 ∧
    all_positive_degree_vertices_connected (nx.bfs_fuel G1) G' = Raise IndexError ∧
    ((2 ≤ length G1)%nat →
     Eulerian_circuit_1 (circuit_fuel G1) G' = (Return None, G') ∧
     Eulerian_circuit_2 (circuit_fuel G1) G' = (Return None, G') ∧
     Eulerian_circuit_3 (circuit_fuel G1) G' = (Return None, G')).
Proof.
  destruct (X5_after_variant_1 G1 (circuit_fuel G1) (nx.bfs_fuel G1))
    as (C & G' & H1 & HG' & Hchk & _).
  { by_evaluation. }
  { vm_compute. reflexivity. }
  { by_evaluation. }
  { lia. }
  destruct (X5_after_variant_1 G1 (circuit_fuel G1) (circuit_fuel G1))
    as (C' & G'' & H1' & HG'' & _ & Hagain).
  { by_evaluation. }
  { vm_compute. reflexivity. }
  { by_evaluation. }
  { lia. }
  exists C, G'. rewrite HG'' in Hagain. rewrite HG'.
  rewrite HG' in H1, Hchk. split_and!; [exact H1 | reflexivity | exact Hchk | exact Hagain].
Defined.

(** X6: the test that guards the builders and the repository's own
    connectivity check differ by the isolated nodes only.  On a simple graph
    with at least one edge, [nx.is_eulerian] returns [True] exactly when
    every degree is even, [all_positive_degree_vertices_connected] returns
    [True], and no node is without neighbours. *)
Theorem X6_eulerian_test_and_connectivity_check (G : Graph) (fuel : nat) :
  wf_graph G → pos_deg G ≠ [] → (nx.bfs_fuel G ≤ fuel)%nat →
  nx.is_eulerian G = Return true ↔
    all_even G ∧
    all_positive_degree_vertices_connected fuel G = Return true ∧
    pos_deg G = nx.nodes G.
Proof.
  intros Hwf Hpos Hfuel. pose proof (wf_nodes_NoDup G Hwf) as Hnd.
  destruct (pos_deg G) as [|u rest] eqn:Hpd; [done|]. clear Hpos.
  destruct (connectivity_check_spec G fuel u rest Hwf Hpd Hfuel)
    as (seen & _ & Hres & _ & _ & Hsize).
  rewrite Hres, <-Hpd. clear Hres.
  assert (u ∈ pos_deg G) as Hu by (rewrite Hpd; by left).
  assert (∀ v, v ∈ pos_deg G → v ∈ nx.nodes G) as Hsub.
  { intros v Hv. unfold pos_deg in Hv.
    by apply list_elem_of_filter in Hv as [_ ?]. }
  split.
  - intros Heul. apply is_eulerian_true in Heul as (_ & Heven & Hconn); [|done].
    split; [done|]. split.
    + f_equal. apply bool_decide_eq_true_2, Hsize.
      intros v w Hv Hw. apply Hconn; by apply Hsub.
    + apply filter_all. intros v Hv.
      cut (v ∈ pos_deg G).
      { intros Hin. unfold pos_deg in Hin.
        by apply list_elem_of_filter in Hin as [? _]. }
      destruct (decide (v = u)) as [->|Hne]; [done|].
      destruct (rtc_inv _ _ (Hconn v u Hv (Hsub u Hu))) as [? | (y & Hvy & _)];
        [done|].
      apply elem_of_pos_deg; eauto.
  - intros (Heven & Hchk & Hall).
    assert (G ≠ []) as Hne by (by intros ->).
    destruct (is_eulerian_spec G Hwf Hne) as (b & -> & Hiff).
    f_equal. apply Hiff. split; [done|].
    injection Hchk as Hchk. apply bool_decide_eq_true_1, Hsize in Hchk.
    intros v w Hv Hw. apply Hchk; by rewrite Hall.
Qed.

Lemma X6_witness :
  nx.is_eulerian G4 = Return true ↔
    all_even G4 ∧
    all_positive_degree_vertices_connected (nx.bfs_fuel G4) G4 = Return true ∧
    pos_deg G4 = nx.nodes G4.
Proof.
  apply (X6_eulerian_test_and_connectivity_check G4 (nx.bfs_fuel G4)).
  - by_evaluation.
  - vm_compute. discriminate.
  - lia.
Defined.

(** X7: a node without neighbours beside at least one other node makes
    every builder return [None], whatever the rest of the graph looks like,
    and the graph is left as it was. *)
Theorem X7_isolated_node_returns_None (G : Graph) (n : Z) (fuel : nat) :
  wf_graph G → (n, []) ∈ G → (2 ≤ length G)%nat →
  Eulerian_circuit_1 fuel G = (Return None, G) ∧
  Eulerian_circuit_2 fuel G = (Return None, G) ∧
  Eulerian_circuit_3 fuel G = (Return None, G).
Proof.
  intros Hwf Hn Hlen.
  assert (nx.is_eulerian G = Return false) as Heul.
  { apply not_eulerian_test; [done | intros ->; simpl in Hlen; lia |].
    intros [_ Hconn]. by eapply isolated_not_connected. }
  unfold Eulerian_circuit_1, Eulerian_circuit_2, Eulerian_circuit_3.
  by rewrite Heul.
Qed.

Lemma X7_witness :
  Eulerian_circuit_1 (circuit_fuel triangle_and_isolated) triangle_and_isolated
  = (Return None, triangle_and_isolated) ∧
  Eulerian_circuit_2 (circuit_fuel triangle_and_isolated) triangle_and_isolated
  = (Return None, triangle_and_isolated) ∧
  Eulerian_circuit_3 (circuit_fuel triangle_and_isolated) triangle_and_isolated
  = (Return None, triangle_and_isolated).
Proof.
  apply (X7_isolated_node_returns_None triangle_and_isolated 3
           (circuit_fuel triangle_and_isolated)).
  - by_evaluation.
  - by_evaluation.
  - vm_compute. lia.
Defined.

(** X8: the verdicts do not depend on the order in which the nodes and the
    edges were added to the graph, nor on which end of an edge came first:
    on two simple graphs with the same nodes and the same edges,
    [all_positive_degree_vertices_connected] has the same outcome, and each
    builder returns [None] on one exactly when it does on the other.  (The
    circuit that a builder returns does depend on that order.) *)
Theorem X8_verdicts_ignore_insertion_order (G G' : Graph) (fuel fuel' : nat) :
  wf_graph G → wf_graph G' →
  nx.nodes G ⊆ nx.nodes G' → nx.nodes G' ⊆ nx.nodes G →
  dir_edges G ⊆ dir_edges G' → dir_edges G' ⊆ dir_edges G →
  (nx.bfs_fuel G ≤ fuel)%nat → (nx.bfs_fuel G' ≤ fuel')%nat →
  all_positive_degree_vertices_connected fuel G
  = all_positive_degree_vertices_connected fuel' G' ∧
  ((Eulerian_circuit_1 fuel G).1 = Return None
   ↔ (Eulerian_circuit_1 fuel' G').1 = Return None) ∧
  ((Eulerian_circuit_2 fuel G).1 = Return None
   ↔ (Eulerian_circuit_2 fuel' G').1 = Return None) ∧
  ((Eulerian_circuit_3 fuel G).1 = Return None
   ↔ (Eulerian_circuit_3 fuel' G').1 = Return None).
Proof.
  intros Hwf Hwf' Hn Hn' He He' Hfuel Hfuel'.
  split; [by apply same_graph_connectivity_check|].
  pose proof (circuit_fuel_le_bfs_fuel G) as Hc.
  pose proof (circuit_fuel_le_bfs_fuel G') as Hc'.
  destruct (None_iff_test_fails G fuel Hwf) as (-> & -> & ->); [lia|].
  destruct (None_iff_test_fails G' fuel' Hwf') as (-> & -> & ->); [lia|].
  by rewrite (same_graph_is_eulerian G G').
Qed.

Lemma X8_witness :
  all_positive_degree_vertices_connected (nx.bfs_fuel G4) G4
  = all_positive_degree_vertices_connected (nx.bfs_fuel G4_reversed) G4_reversed ∧
  ((Eulerian_circuit_1 (nx.bfs_fuel G4) G4).1 = Return None
   ↔ (Eulerian_circuit_1 (nx.bfs_fuel G4_reversed) G4_reversed).1 = Return None) ∧
  ((Eulerian_circuit_2 (nx.bfs_fuel G4) G4).1 = Return None
   ↔ (Eulerian_circuit_2 (nx.bfs_fuel G4_reversed) G4_reversed).1 = Return None) ∧
  ((Eulerian_circuit_3 (nx.bfs_fuel G4) G4).1 = Return None
   ↔ (Eulerian_circuit_3 (nx.bfs_fuel G4_reversed) G4_reversed).1 = Return None).
Proof.
  apply (X8_verdicts_ignore_insertion_order G4 G4_reversed
           (nx.bfs_fuel G4) (nx.bfs_fuel G4_reversed)).
  - by_evaluation.
  - by_evaluation.
  - by_evaluation.
  - by_evaluation.
  - by_evaluation.
  - by_evaluation.
  - lia.
  - lia.
Defined.

(** X9: a builder never returns a wrong list.  On a simple graph, whatever
    list [Eulerian_circuit_1] or [Eulerian_circuit_3] returns is an Eulerian
    circuit of the graph as it was before the call, and whatever list
    [Eulerian_circuit_2] returns is one once each index [i] is replaced by
    the node [list(G)[i]]. *)
Theorem X9_returned_lists_are_circuits (G : Graph) (fuel : nat) (C : list Z) :
  wf_graph G →
  ((Eulerian_circuit_1 fuel G).1 = Return (Some C) → eulerian_circuit_of G C) ∧
  ((Eulerian_circuit_3 fuel G).1 = Return (Some C) → eulerian_circuit_of G C) ∧
  ((Eulerian_circuit_2 fuel G).1 = Return (Some C) →
   eulerian_circuit_of G (node_at G <$> C)).
Proof.
  intros Hwf.
  destruct (returned_lists_are_circuits G (fuel + circuit_fuel G) C Hwf)
    as (H1 & H3 & H2); [lia|].
  split_and!; intros Hret.
  - apply H1. rewrite Eulerian_circuit_1_fuel_mono; [done | by rewrite Hret].
  - apply H3. rewrite Eulerian_circuit_3_fuel_mono; [done | by rewrite Hret].
  - apply H2. rewrite Eulerian_circuit_2_fuel_mono; [done | by rewrite Hret].
Qed.

Lemma X9_witness :
  eulerian_circuit_of G2 [0; 1; 2; 3; 4; 1; 3; 0] ∧
  eulerian_circuit_of G2 [0; 3; 1; 4; 3; 2; 1; 0] ∧
  eulerian_circuit_of G2 (node_at G2 <$> [0; 3; 4; 1; 3; 2; 1; 0]).
Proof.
  split_and!.
  - destruct (X9_returned_lists_are_circuits G2 20 [0; 1; 2; 3; 4; 1; 3; 0])
      as (H1 & _ & _); [by_evaluation|].
    apply H1. vm_compute. reflexivity.
  - destruct (X9_returned_lists_are_circuits G2 20 [0; 3; 1; 4; 3; 2; 1; 0])
      as (_ & H3 & _); [by_evaluation|].
    apply H3. vm_compute. reflexivity.
  - destruct (X9_returned_lists_are_circuits G2 20 [0; 3; 4; 1; 3; 2; 1; 0])
      as (_ & _ & H2); [by_evaluation|].
    apply H2. vm_compute. reflexivity.
Defined.

(** X10: the builders find a circuit whenever there is one.  If a simple
    graph in which every node has a neighbour has any Eulerian circuit at
    all, then [Eulerian_circuit_2] returns a list, and so do
    [Eulerian_circuit_1] and [Eulerian_circuit_3] when 0 is a node; what
    they return is an Eulerian circuit (for variant 2 after reading the
    indices through [list(G)]). *)
Theorem X10_builders_find_a_circuit_when_there_is_one
    (G : Graph) (C : list Z) (fuel : nat) :
  wf_graph G → G ≠ [] → pos_deg G = nx.nodes G → eulerian_circuit_of G C →
  (circuit_fuel G ≤ fuel)%nat →
  (∃ C2, (Eulerian_circuit_2 fuel G).1 = Return (Some C2) ∧
         eulerian_circuit_of G (node_at G <$> C2)) ∧
  (0 ∈ nx.nodes G →
   ∃ C1 C3, (Eulerian_circuit_1 fuel G).1 = Return (Some C1) ∧
            (Eulerian_circuit_3 fuel G).1 = Return (Some C3) ∧
            eulerian_circuit_of G C1 ∧ eulerian_circuit_of G C3).
Proof.
  intros Hwf Hne Hpos Hcirc Hfuel.
  destruct (is_eulerian_spec G Hwf Hne) as (b & Heul & Hiff).
  assert (b = true) as -> by (by eapply Hiff, circuit_even_connected).
  split.
  - destruct (Eulerian_circuit_2_labels G fuel Hwf Heul Hfuel)
      as (C2 & -> & _ & Hc2 & _). by exists C2.
  - intros H0.
    destruct (Eulerian_circuit_1_correct G fuel Hwf Heul H0 Hfuel)
      as (C1 & -> & Hc1 & _).
    destruct (Eulerian_circuit_3_correct G fuel Hwf Heul H0 Hfuel)
      as (C3 & -> & Hc3 & _).
    by exists C1, C3.
Qed.

Lemma X10_witness :
  (∃ C2, (Eulerian_circuit_2 (circuit_fuel triangle_057) triangle_057).1
           = Return (Some C2) ∧
         eulerian_circuit_of triangle_057 (node_at triangle_057 <$> C2)) ∧
  (0 ∈ nx.nodes triangle_057 →
   ∃ C1 C3,
     (Eulerian_circuit_1 (circuit_fuel triangle_057) triangle_057).1
       = Return (Some C1) ∧
     (Eulerian_circuit_3 (circuit_fuel triangle_057) triangle_057).1
       = Return (Some C3) ∧
     eulerian_circuit_of triangle_057 C1 ∧ eulerian_circuit_of triangle_057 C3).
Proof.
  apply (X10_builders_find_a_circuit_when_there_is_one
           triangle_057 [5; 7; 0; 5] (circuit_fuel triangle_057)).
  - by_evaluation.
  - discriminate.
  - vm_compute. reflexivity.
  - apply (closed_walk_is_circuit triangle_057 [5; 7; 0; 5] 5).
    + by_evaluation.
    + reflexivity.
    + reflexivity.
    + by_evaluation.
    + by_evaluation.
    + by_evaluation.
  - lia.
Defined.
